(** * SkyDNS [msg] package: services, record synthesis, key/name mapping

    A shallow embedding of [msg/service.go].  Go strings are byte
    sequences and are modelled as [list ascii]; slices are lists, with the
    slicing expressions of the source checked for bounds (an out-of-range
    slice is a run-time panic in Go and [None] here).  Indexes and lengths
    are [nat]: they never exceed the length of a string, so the
    arithmetic of Go's [int] cannot wrap on them.  The fields that the
    source converts to [uint16] are [Z] with the truncation written out. *)

From Stdlib Require Import ZArith Lia Ascii String.
From Equations Require Import Equations.
From stdpp Require Import base decidable option list strings.

Local Open Scope nat_scope.

(** ** Go strings and slice expressions *)

Abbreviation gostring := (list ascii).

Definition str (s : string) : gostring := list_ascii_of_string s.

(** [s[lo:hi]]: panics unless [lo <= hi <= len(s)]. *)
Definition slice {A} (s : list A) (lo hi : nat) : option (list A) :=
  if decide (lo <= hi /\ hi <= length s)
  then Some (take (hi - lo) (drop lo s))
  else None.

(** [s[lo:]] *)
Definition slice_from {A} (s : list A) (lo : nat) : option (list A) :=
  slice s lo (length s).

(** [s[:hi]] *)
Definition slice_to {A} (s : list A) (hi : nat) : option (list A) :=
  slice s 0 hi.

(** ** Text chunking: [split255] *)

(** The body of the [for] loop of [split255]; [p] and [i] advance by 255
    on each turn, so the distance from [i] to the end of [s] decreases. *)
Equations? split255_loop (s : gostring) (p i : nat) (sx : list gostring)
  : option (list gostring) by wf (S (length s) - i) lt :=
  split255_loop s p i sx with decide (i <= length s) := {
    | left _ with slice s p i := {
        | Some c => split255_loop s (p + 255) (i + 255) (sx ++ [c]);
        | None => None };
    | right _ with slice_from s p := {
        | Some c => Some (sx ++ [c]);
        | None => None } }.
Proof. lia. Qed.

Definition split255 (s : gostring) : option (list gostring) :=
  if decide (length s < 255) then Some [s]
  else split255_loop s 0 255 [].

(** ** The parts of [strings] and [path] (Go standard library) in use *)

(** [strings.Count(s, sep)] for a one-byte separator. *)
Fixpoint strings_Count (s : gostring) (sep : ascii) : nat :=
  match s with
  | [] => 0
  | c :: r => if decide (c = sep) then S (strings_Count r sep)
              else strings_Count r sep
  end.

(** [strings.Split(s, sep)] for a one-byte separator: always at least one
    piece, one more than there are separators. *)
Fixpoint strings_Split (s : gostring) (sep : ascii) : list gostring :=
  match s with
  | [] => [[]]
  | c :: r =>
      if decide (c = sep) then [] :: strings_Split r sep
      else match strings_Split r sep with
           | h :: t => (c :: h) :: t
           | [] => [[c]]
           end
  end.

(** [strings.Join(elems, sep)] *)
Fixpoint strings_Join (elems : list gostring) (sep : gostring) : gostring :=
  match elems with
  | [] => []
  | [e] => e
  | e :: r => e ++ sep ++ strings_Join r sep
  end.

(** One path element of [path.Clean]: [out] holds the elements written so
    far and [dotdot] counts the leading [..] elements that can no longer
    be removed (the source keeps the same mark as a byte index). *)
Definition Clean_step (rooted : bool) (st : list gostring * nat)
    (e : gostring) : list gostring * nat :=
  let '(out, dotdot) := st in
  if decide (e = []) then st
  else if decide (e = str ".") then st
  else if decide (e = str "..") then
    if decide (dotdot < length out) then (removelast out, dotdot)
    else if rooted then st
    else (out ++ [e], S dotdot)
  else (out ++ [e], dotdot).

(** [path.Clean]: the shortest equivalent path, by lexical processing of
    the elements between slashes. *)
Definition path_Clean (p : gostring) : gostring :=
  if decide (p = []) then str "."
  else
    let rooted := bool_decide (head p = Some "/"%char) in
    let out := fst (fold_left (Clean_step rooted) (strings_Split p "/") ([], 0)) in
    if rooted then "/"%char :: strings_Join out (str "/")
    else if decide (out = []) then str "."
    else strings_Join out (str "/").

(** [path.Join]: leading empty elements are ignored, the rest is joined
    with slashes and cleaned; no non-empty element gives the empty string. *)
Fixpoint path_Join (elem : list gostring) : gostring :=
  match elem with
  | [] => []
  | e :: r => if decide (e = []) then path_Join r
              else path_Clean (strings_Join (e :: r) (str "/"))
  end.

(** ** The parts of [github.com/miekg/dns] in use *)

Module dns.

(** [IsFqdn]: the last byte is a dot. *)
Definition IsFqdn (s : gostring) : bool :=
  match last s with
  | Some c => bool_decide (c = "."%char)
  | None => false
  end.

Definition Fqdn (s : gostring) : gostring :=
  if IsFqdn s then s else s ++ str ".".

(** The scan of [NextLabel]: [rest] is [s[i:]], and the loop condition
    [i < len(s)-1] holds when two bytes or more remain.  A backslash
    flips [quote], a quoted dot is skipped, any other byte clears it. *)
Fixpoint NextLabel_scan (rest : gostring) (i : nat) (quote : bool) : nat * bool :=
  match rest with
  | c :: ((_ :: _) as tl) =>
      if decide (c = "\"%char) then NextLabel_scan tl (S i) (negb quote)
      else if decide (c = "."%char) then
        if quote then NextLabel_scan tl (S i) false
        else (S i, false)
      else NextLabel_scan tl (S i) false
  | _ => (S i, true)
  end.

(** [NextLabel(s, offset)]: the index where the next label starts, and
    whether the end of the string was reached. *)
Definition NextLabel (s : gostring) (offset : nat) : nat * bool :=
  NextLabel_scan (drop offset s) offset false.

(** A label found before the end starts after [i] and inside the string:
    this is what makes the loop of [Split] terminate. *)
Lemma NextLabel_scan_progress rest i quote o :
  NextLabel_scan rest i quote = (o, false) -> i < o /\ o < i + length rest.
Proof.
  revert i quote. induction rest as [|c tl IH]; intros i quote; simpl.
  - discriminate.
  - destruct tl as [|c' tl']; [discriminate|].
    repeat case_decide; try destruct quote; intros Hs;
      try (apply IH in Hs; simpl in *; lia);
      injection Hs as <-; simpl; lia.
Qed.

Lemma NextLabel_progress s off o :
  NextLabel s off = (o, false) -> off < o /\ o < length s.
Proof.
  unfold NextLabel. intros H. apply NextLabel_scan_progress in H.
  rewrite length_drop in H. lia.
Qed.

Definition inspect {A} (a : A) : {b : A | a = b} := exist _ a eq_refl.

(** The [for] loop of [Split]: collect the start of every label until
    [NextLabel] reports the end. *)
Equations? Split_loop (s : gostring) (off : nat) (idx : list nat)
  : list nat by wf (length s - off) lt :=
  Split_loop s off idx with inspect (NextLabel s off) := {
    | exist _ (_, true) _ => idx;
    | exist _ (off', false) H => Split_loop s off' (idx ++ [off']) }.
Proof. apply NextLabel_progress in H. lia. Qed.

(** [Split]: the indexes where the labels of [s] start; [nil] for the
    root name. *)
Definition Split (s : gostring) : list nat :=
  if decide (s = str ".") then [] else Split_loop s 0 [0].

(** The [for] loop of [SplitDomainName] over [idx[1:]]: each label runs
    from [begin] to the byte before the dot that ends it. *)
Fixpoint SplitDomainName_loop (s : gostring) (idx : list nat) (begin : nat)
    (labels : list gostring) : option (nat * list gostring) :=
  match idx with
  | [] => Some (begin, labels)
  | e :: idx' =>
      if decide (e = 0) then None
      else match slice s begin (e - 1) with
           | Some c => SplitDomainName_loop s idx' e (labels ++ [c])
           | None => None
           end
  end.

(** [SplitDomainName]: the labels of [s], without the dots. *)
Definition SplitDomainName (s : gostring) : option (list gostring) :=
  if decide (length s = 0) then Some []
  else
    let idx := Split s in
    let fqdnEnd := if IsFqdn s then length s - 1 else length s in
    match idx with
    | [] => Some []
    | _ :: idx' =>
        match SplitDomainName_loop s idx' 0 [] with
        | Some (begin, labels) =>
            match slice s begin fqdnEnd with
            | Some c => Some (labels ++ [c])
            | None => None
            end
        | None => None
        end
    end.

End dns.

(** Resource records of [miekg/dns], as far as this package fills them. *)
Module RR.

Definition TypeA : Z := 1.
Definition TypeNS : Z := 2.
Definition TypeCNAME : Z := 5.
Definition TypePTR : Z := 12.
Definition TypeTXT : Z := 16.
Definition TypeAAAA : Z := 28.
Definition TypeSRV : Z := 33.
Definition ClassINET : Z := 1.

Record RR_Header := mkHeader {
  Name : gostring;
  Rrtype : Z;
  Class : Z;
  Ttl : Z
}.

Record SRV := mkSRV {
  SRV_Hdr : RR_Header;
  SRV_Priority : Z;
  SRV_Weight : Z;
  SRV_Port : Z;
  SRV_Target : gostring
}.

Record A := mkA { A_Hdr : RR_Header; A_A : list Z }.
Record AAAA := mkAAAA { AAAA_Hdr : RR_Header; AAAA_AAAA : list Z }.
Record CNAME := mkCNAME { CNAME_Hdr : RR_Header; CNAME_Target : gostring }.
Record NS := mkNS { NS_Hdr : RR_Header; NS_Ns : gostring }.
Record TXT := mkTXT { TXT_Hdr : RR_Header; TXT_Txt : list gostring }.
Record PTR := mkPTR { PTR_Hdr : RR_Header; PTR_Ptr : gostring }.

End RR.

(** ** Services *)

Module Service.

Record t := mk {
  Host : gostring;
  Port : Z;
  Priority : Z;
  Weight : Z;
  Text : gostring;
  Ttl : Z;
  TargetStrip : Z;
  Group : gostring;
  Key : gostring
}.

End Service.

Abbreviation Service := Service.t.

(** The conversion [uint16(x)] of an [int]: the low 16 bits. *)
Definition uint16 (x : Z) : Z := (x mod 65536)%Z.

(** ** Record synthesis *)

(** The loop of [NewSRV]: [n] calls of [NextLabel], each from the offset
    the one before returned. *)
Fixpoint NewSRV_loop (host : gostring) (n : nat) (offset : nat) (end_ : bool)
  : nat * bool :=
  match n with
  | 0 => (offset, end_)
  | S n' => let '(offset', end') := dns.NextLabel host offset in
            NewSRV_loop host n' offset' end'
  end.

(** [NewSRV]; [None] would be the panic of [host[offset:]]. *)
Definition NewSRV (s : Service) (name : gostring) (weight : Z) : option RR.SRV :=
  let host := dns.Fqdn (Service.Host s) in
  let '(offset, end_) :=
    NewSRV_loop host (Z.to_nat (Service.TargetStrip s)) 0 false in
  let offset := if end_ then 0 else offset in
  match slice_from host offset with
  | Some host' =>
      Some (RR.mkSRV (RR.mkHeader name RR.TypeSRV RR.ClassINET (Service.Ttl s))
                     (uint16 (Service.Priority s)) weight
                     (uint16 (Service.Port s)) host')
  | None => None
  end.

Definition NewA (s : Service) (name : gostring) (ip : list Z) : RR.A :=
  RR.mkA (RR.mkHeader name RR.TypeA RR.ClassINET (Service.Ttl s)) ip.

Definition NewAAAA (s : Service) (name : gostring) (ip : list Z) : RR.AAAA :=
  RR.mkAAAA (RR.mkHeader name RR.TypeAAAA RR.ClassINET (Service.Ttl s)) ip.

Definition NewCNAME (s : Service) (name target : gostring) : RR.CNAME :=
  RR.mkCNAME (RR.mkHeader name RR.TypeCNAME RR.ClassINET (Service.Ttl s)) target.

Definition NewNS (s : Service) (name target : gostring) : RR.NS :=
  RR.mkNS (RR.mkHeader name RR.TypeNS RR.ClassINET (Service.Ttl s)) target.

(** [NewTXT]; [None] would be a panic inside [split255]. *)
Definition NewTXT (s : Service) (name : gostring) : option RR.TXT :=
  match split255 (Service.Text s) with
  | Some txt =>
      Some (RR.mkTXT (RR.mkHeader name RR.TypeTXT RR.ClassINET (Service.Ttl s)) txt)
  | None => None
  end.

Definition NewPTR (s : Service) (name : gostring) (ttl : Z) : RR.PTR :=
  RR.mkPTR (RR.mkHeader name RR.TypePTR RR.ClassINET ttl)
           (dns.Fqdn (Service.Host s)).

(** ** Key and name mapping *)

(** [l[i], l[j] = l[j], l[i]] *)
Definition swap {A} (l : list A) (i j : nat) : list A :=
  match l !! i, l !! j with
  | Some x, Some y => <[j := x]> (<[i := y]> l)
  | _, _ => l
  end.

(** [for i, j := i0, j0; i < j; i, j = i+1, j-1 { swap }], the in-place
    reversal used by [Path], [PathWithWildcard] and [Domain]. *)
Equations? reverse_loop {A} (l : list A) (i j : nat) : list A
  by wf (j - i) lt :=
  reverse_loop l i j with decide (i < j) := {
    | left _ => reverse_loop (swap l i j) (S i) (j - 1);
    | right _ => l }.
Proof. lia. Qed.

Definition skydns_root : gostring := str "/skydns/".

(** [Path]; [None] would be a panic inside [SplitDomainName]. *)
Definition Path (s : gostring) : option gostring :=
  match dns.SplitDomainName s with
  | Some l =>
      let l := reverse_loop l 0 (length l - 1) in
      Some (path_Join (skydns_root :: l))
  | None => None
  end.

(** The [range] loop of [PathWithWildcard] over the reversed labels. *)
Fixpoint PathWithWildcard_loop (l todo : list gostring) (i : nat)
  : option (gostring * bool) :=
  match todo with
  | [] => Some (path_Join (skydns_root :: l), false)
  | k :: todo' =>
      if decide (k = str "*") then
        match slice_to l i with
        | Some pre => Some (path_Join (skydns_root :: pre), true)
        | None => None
        end
      else PathWithWildcard_loop l todo' (S i)
  end.

Definition PathWithWildcard (s : gostring) : option (gostring * bool) :=
  match dns.SplitDomainName s with
  | Some l =>
      let l := reverse_loop l 0 (length l - 1) in
      PathWithWildcard_loop l l 0
  | None => None
  end.

(** [Domain]; [l[1:len(l)-1]] panics on a path without a slash. *)
Definition Domain (s : gostring) : option gostring :=
  let l := strings_Split s "/" in
  let l := reverse_loop l 1 (length l - 1) in
  match slice l 1 (length l - 1) with
  | Some m => Some (dns.Fqdn (strings_Join m (str ".")))
  | None => None
  end.

(** ** Group selection *)

(** The slice [ret] of [Group]: the fresh empty slice it starts as, or,
    after [ret = sx[:i]], the first [n] cells of the array of [sx]
    itself.  In the second case [append] writes into that array. *)
Inductive retslice :=
| Fresh (l : list Service)
| View (n : nat).

Record Group_state := mkState {
  mem : list Service;   (* the array behind [sx] *)
  group : gostring;
  count : bool;
  ret : retslice
}.

(** What a slice holds, read from the array. *)
Definition contents (m : list Service) (r : retslice) : list Service :=
  match r with
  | Fresh l => l
  | View n => take n m
  end.

(** [append(ret, s)]: in place while the array of [sx] has room, into a
    new array otherwise. *)
Definition append (m : list Service) (r : retslice) (s : Service)
  : list Service * retslice :=
  match r with
  | Fresh l => (m, Fresh (l ++ [s]))
  | View n => if decide (n < length m) then (<[n := s]> m, View (S n))
              else (m, Fresh (take n m ++ [s]))
  end.

(** Lines 161 to 176: the part of the loop body below the first [if]. *)
Definition Group_descend (i : nat) (s : Service) (st : Group_state)
  : Group_state + list Service :=
  if decide (group st = []) then inr (mem st)
  else
    let r := if count st then View i else ret st in
    if decide (Service.Group s = [] \/ Service.Group s = group st) then
      let '(m, r') := append (mem st) r s in
      inl (mkState m (group st) false r')
    else inl (mkState (mem st) (group st) false r).

(** One turn of the [range] loop: the next state, or the value returned
    from inside the loop. *)
Definition Group_body (slashes : nat) (i : nat) (s : Service) (st : Group_state)
  : Group_state + list Service :=
  if count st && bool_decide (strings_Count (Service.Key s) "/" = slashes) then
    if decide (Service.Group s = []) then inl st
    else if decide (group st = []) then
      inl (mkState (mem st) (Service.Group s) (count st) (ret st))
    else if decide (Service.Group s <> [] /\ Service.Group s <> group st) then
      inr (mem st)
    else Group_descend i s st
  else Group_descend i s st.

(** [for i, s := range sx]: [n] turns are left, [s] is read from the
    array at the start of each turn. *)
Fixpoint Group_loop (slashes : nat) (n i : nat) (st : Group_state)
  : list Service :=
  match n with
  | 0 => contents (mem st) (ret st)
  | S n' =>
      match mem st !! i with
      | Some s =>
          match Group_body slashes i s st with
          | inl st' => Group_loop slashes n' (S i) st'
          | inr r => r
          end
      | None => contents (mem st) (ret st)
      end
  end.

Definition Group (sx : list Service) : list Service :=
  match sx with
  | [] => sx
  | s0 :: _ =>
      let slashes := strings_Count (Service.Key s0) "/" in
      Group_loop slashes (length sx) 0 (mkState sx [] true (Fresh []))
  end.

(** The array behind [sx] at the moment [Group] returns: the same loop,
    read for what it leaves in the caller's array instead of for its
    result. *)
Fixpoint Group_loop_array (slashes : nat) (n i : nat) (st : Group_state)
  : list Service :=
  match n with
  | 0 => mem st
  | S n' =>
      match mem st !! i with
      | Some s =>
          match Group_body slashes i s st with
          | inl st' => Group_loop_array slashes n' (S i) st'
          | inr _ => mem st
          end
      | None => mem st
      end
  end.

Definition Group_array (sx : list Service) : list Service :=
  match sx with
  | [] => sx
  | s0 :: _ =>
      let slashes := strings_Count (Service.Key s0) "/" in
      Group_loop_array slashes (length sx) 0 (mkState sx [] true (Fresh []))
  end.

(** ** Specification vocabulary *)

(** The fully-qualified name made of the given labels. *)
Definition dotted (labels : list gostring) : gostring :=
  strings_Join labels (str ".") ++ str ".".

(** [rest] lists the offsets [NextLabel] returns in turn when called
    from [off] on, up to (not including) the call that reports the end. *)
Fixpoint label_chain (s : gostring) (off : nat) (rest : list nat) : Prop :=
  match rest with
  | [] => snd (dns.NextLabel s off) = true
  | o :: rest' => dns.NextLabel s off = (o, false) /\ label_chain s o rest'
  end.

(** A label of an ordinary host name: not empty, and free of the bytes
    that the name syntax or the key syntax give a meaning to. *)
Definition plain_label (l : gostring) : Prop :=
  l <> [] /\ ("."%char ∉ l) /\ ("\"%char ∉ l) /\ ("/"%char ∉ l).

(** The key of a plain name: the root element, then the labels from the
    last to the first. *)
Definition key_of (ls : list gostring) : gostring :=
  "/"%char :: strings_Join (str "skydns" :: rev ls) (str "/").

(** An entry that the first phase of [Group] passes over: at the top
    depth, with no group. *)
Definition top_ungrouped (slashes : nat) (s : Service) : Prop :=
  strings_Count (Service.Key s) "/" = slashes /\ Service.Group s = [].

(** An entry that the second phase of [Group] keeps under the group [g]. *)
Definition keeps (g : gostring) (s : Service) : Prop :=
  Service.Group s = [] \/ Service.Group s = g.

#[global] Instance keeps_dec g s : Decision (keeps g s).
Proof. unfold keeps. apply _. Defined.

(** [Group] without the array: a scan of [todo], the entries of [sx] from
    index [i] on, with [g] the group found so far.  The scan ends at the
    first entry that is deeper than the top or repeats [g]; from there on
    the entries are filtered. *)
Fixpoint Group_pure_loop (slashes : nat) (sx todo : list Service) (i : nat)
    (g : gostring) : list Service :=
  match todo with
  | [] => []
  | s :: todo' =>
      if decide (strings_Count (Service.Key s) "/" = slashes) then
        if decide (Service.Group s = []) then
          Group_pure_loop slashes sx todo' (S i) g
        else if decide (g = []) then
          Group_pure_loop slashes sx todo' (S i) (Service.Group s)
        else if decide (Service.Group s = g) then
          take i sx ++ filter (keeps g) todo
        else sx
      else if decide (g = []) then sx
      else take i sx ++ filter (keeps g) todo
  end.

Definition Group_pure (sx : list Service) : list Service :=
  match sx with
  | [] => []
  | s0 :: _ =>
      Group_pure_loop (strings_Count (Service.Key s0) "/") sx sx 0 []
  end.

(** A service that only has a key and a group, for the examples. *)
Definition svc (key grp : string) : Service :=
  Service.mk [] 0 0 0 [] 0 0 (str grp) (str key).

(** * Properties *)

(** ** Slice expressions *)

Lemma slice_Some {A} (s : list A) lo hi :
  lo <= hi -> hi <= length s ->
  slice s lo hi = Some (take (hi - lo) (drop lo s)).
Proof. intros. unfold slice. case_decide; [reflexivity | lia]. Qed.

Lemma slice_inv {A} (s c : list A) lo hi :
  slice s lo hi = Some c ->
  lo <= hi /\ hi <= length s /\ c = take (hi - lo) (drop lo s).
Proof.
  unfold slice. case_decide; [|discriminate].
  intros [= <-]. tauto.
Qed.

Lemma slice_from_Some {A} (s : list A) lo :
  lo <= length s -> slice_from s lo = Some (drop lo s).
Proof.
  intros. unfold slice_from. rewrite slice_Some by lia.
  rewrite take_ge; [reflexivity | rewrite length_drop; lia].
Qed.

Lemma slice_to_Some {A} (s : list A) hi :
  hi <= length s -> slice_to s hi = Some (take hi s).
Proof.
  intros. unfold slice_to. rewrite slice_Some by lia.
  rewrite Nat.sub_0_r. reflexivity.
Qed.

(** ** [split255] *)

(** The loop keeps [sx] a chunking of [s[:p]] and finishes it. *)
Lemma split255_loop_spec (s : gostring) p i sx :
  i = p + 255 -> p <= length s ->
  concat sx = take p s ->
  Forall (fun c => length c <= 255) sx ->
  exists r, split255_loop s p i sx = Some r
            /\ concat r = s
            /\ Forall (fun c => length c <= 255) r.
Proof.
  funelim (split255_loop s p i sx); intros Hi Hp Hcat Hlen.
  - (* one more full chunk *)
    apply slice_inv in Heq as (_ & _ & ->).
    match goal with IH : _ -> _ -> _ -> _ -> exists _, _ |- _ => apply IH end.
    + lia.
    + lia.
    + rewrite concat_app, Hcat. simpl. rewrite app_nil_r.
      replace (i - p) with 255 by lia.
      rewrite <- take_take_drop. reflexivity.
    + apply Forall_app. split; [assumption|].
      constructor; [|constructor]. rewrite length_take. lia.
  - rewrite slice_Some in Heq by lia. discriminate.
  - (* the last, shorter chunk *)
    rewrite slice_from_Some in Heq by lia. injection Heq as <-.
    eexists. split; [reflexivity|]. split.
    + rewrite concat_app, Hcat. simpl. rewrite app_nil_r.
      apply take_drop.
    + apply Forall_app. split; [assumption|].
      constructor; [|constructor]. rewrite length_drop. lia.
  - rewrite slice_from_Some in Heq by lia. discriminate.
Qed.

Lemma split255_spec (s : gostring) :
  exists sx, split255 s = Some sx
    /\ Forall (fun c => length c <= 255) sx
    /\ concat sx = s
    /\ (length s < 255 -> sx = [s]).
Proof.
  unfold split255. case_decide as Hlt.
  - exists [s]. repeat split.
    + constructor; [lia | constructor].
    + simpl. apply app_nil_r.
  - destruct (split255_loop_spec s 0 255 []) as (r & Hr & Hcat & Hlen);
      [reflexivity | lia | reflexivity | constructor |].
    exists r. repeat split; try assumption. intros; lia.
Qed.

Lemma split255_total (s : gostring) : is_Some (split255 s).
Proof. destruct (split255_spec s) as (sx & -> & _). eauto. Qed.

(** C6: [split255] returns on every string; every chunk is at most 255
    bytes long, the chunks concatenated in order are the string, and a
    string shorter than 255 bytes is its own only chunk.  The text-string
    list of [NewTXT] is the result of [split255] on the service's text. *)
Theorem split255_chunks :
  (forall (v : Service) name,
     option_map RR.TXT_Txt (NewTXT v name) = split255 (Service.Text v))
  /\ forall s : gostring,
       exists sx, split255 s = Some sx
         /\ Forall (fun c => length c <= 255) sx
         /\ concat sx = s
         /\ (length s < 255 -> sx = [s]).
Proof.
  split.
  - intros v name. unfold NewTXT.
    destruct (split255 (Service.Text v)); reflexivity.
  - exact split255_spec.
Qed.

(** ** [Group] *)

Section GroupFlat.

Variable slashes : nat.

(** As long as every entry is at the top depth and no second non-empty
    [Group] shows up, the loop never leaves its first phase: [ret] is
    still the empty slice it was initialised to when the loop ends. *)
Lemma Group_loop_flat n i m g :
  Forall (fun s => strings_Count (Service.Key s) "/" = slashes) (drop i m) ->
  length (filter (fun s => Service.Group s <> []) (drop i m))
    <= (if decide (g = []) then 1 else 0) ->
  Group_loop slashes n i (mkState m g true (Fresh [])) = [].
Proof.
  revert i g. induction n as [|n IH]; intros i g Hkey Hgrp; [reflexivity|].
  simpl. destruct (m !! i) as [s|] eqn:Hs; [|reflexivity].
  rewrite (drop_S _ _ _ Hs) in Hkey, Hgrp.
  apply Forall_cons in Hkey as [Hk Hkey].
  unfold Group_body. simpl.
  rewrite bool_decide_eq_true_2 by exact Hk.
  destruct (decide (Service.Group s = [])) as [He|Hne].
  - apply IH; [exact Hkey|].
    rewrite filter_cons_False in Hgrp by (intros Hx; apply Hx, He).
    exact Hgrp.
  - rewrite filter_cons_True in Hgrp by exact Hne. simpl in Hgrp.
    destruct (decide (g = [])) as [Hg|Hg]; [|lia].
    apply IH; [exact Hkey|].
    destruct (decide (Service.Group s = [])); [contradiction | lia].
Qed.

End GroupFlat.

(** C3: on a non-empty list whose entries all have the separator count of
    the first one, with at most one non-empty [Group] among them, [Group]
    returns the empty list. *)
Theorem Group_flat_is_empty (s0 : Service) (sx : list Service) :
  Forall (fun s => strings_Count (Service.Key s) "/"
                   = strings_Count (Service.Key s0) "/") sx ->
  length (filter (fun s => Service.Group s <> []) (s0 :: sx)) <= 1 ->
  Group (s0 :: sx) = [].
Proof.
  intros Hkey Hgrp. unfold Group.
  apply Group_loop_flat.
  - rewrite drop_0. constructor; [reflexivity | exact Hkey].
  - rewrite drop_0. exact Hgrp.
Qed.

Lemma Group_flat_is_empty_witness :
  Group [svc "/a/b" ""; svc "/a/c" "x"; svc "/a/d" ""] = [].
Proof.
  apply (Group_flat_is_empty (svc "/a/b" "") [svc "/a/c" "x"; svc "/a/d" ""]).
  - repeat constructor.
  - vm_compute. lia.
Defined.

(** C2: what the code does on a one-element list: the loop ends in its
    first phase and the empty [ret] is returned, whatever the entry. *)
Theorem Group_singleton (s : Service) : Group [s] = [].
Proof.
  unfold Group. apply Group_loop_flat; rewrite drop_0.
  - constructor; [reflexivity | constructor].
  - etrans; [apply length_filter | simpl; lia].
Qed.

Section GroupConflict.

Variable slashes : nat.

(** With a group established and only ungrouped top-depth entries in
    between, a top-depth entry of another group makes the loop return
    the array of [sx], which nothing has written to yet. *)
Lemma Group_loop_conflict (m : list Service) (g : gostring) :
  forall skip done b rest,
    m = done ++ skip ++ b :: rest ->
    Forall (top_ungrouped slashes) skip ->
    strings_Count (Service.Key b) "/" = slashes ->
    Service.Group b <> [] -> g <> [] -> Service.Group b <> g ->
    Group_loop slashes (length (skip ++ b :: rest)) (length done)
               (mkState m g true (Fresh [])) = m.
Proof.
  induction skip as [|s skip IH]; intros done b rest Hm Hskip Hkey Hb Hg Hne.
  - simpl. rewrite Hm at 1. simpl.
    rewrite list_lookup_middle by reflexivity.
    unfold Group_body. simpl.
    rewrite bool_decide_eq_true_2 by exact Hkey.
    rewrite !decide_False by assumption.
    rewrite decide_True by (split; assumption). reflexivity.
  - apply Forall_cons in Hskip as [[Hk He] Hskip].
    simpl. rewrite Hm at 1. simpl.
    rewrite list_lookup_middle by reflexivity.
    unfold Group_body. simpl.
    rewrite bool_decide_eq_true_2 by exact Hk.
    rewrite decide_True by exact He.
    replace (S (length done)) with (length (done ++ [s]))
      by (rewrite length_app; simpl; lia).
    apply IH; try assumption.
    rewrite Hm, <- app_assoc. reflexivity.
Qed.

(** The same from the start of the loop: the first entry with a group
    establishes it, the next one with a group disagrees. *)
Lemma Group_loop_first_conflict (m : list Service) :
  forall pre done a mid b rest,
    m = done ++ pre ++ a :: mid ++ b :: rest ->
    Forall (top_ungrouped slashes) pre ->
    strings_Count (Service.Key a) "/" = slashes -> Service.Group a <> [] ->
    Forall (top_ungrouped slashes) mid ->
    strings_Count (Service.Key b) "/" = slashes ->
    Service.Group b <> [] -> Service.Group b <> Service.Group a ->
    Group_loop slashes (length (pre ++ a :: mid ++ b :: rest)) (length done)
               (mkState m [] true (Fresh [])) = m.
Proof.
  induction pre as [|s pre IH];
    intros done a mid b rest Hm Hpre Hka Ha Hmid Hkb Hb Hne.
  - simpl. rewrite Hm at 1. simpl.
    rewrite list_lookup_middle by reflexivity.
    unfold Group_body. simpl.
    rewrite bool_decide_eq_true_2 by exact Hka.
    rewrite decide_False by exact Ha. simpl.
    replace (S (length done)) with (length (done ++ [a]))
      by (rewrite length_app; simpl; lia).
    apply Group_loop_conflict; try assumption.
    rewrite Hm. simpl. rewrite <- app_assoc. reflexivity.
  - apply Forall_cons in Hpre as [[Hk He] Hpre].
    simpl. rewrite Hm at 1. simpl.
    rewrite list_lookup_middle by reflexivity.
    unfold Group_body. simpl.
    rewrite bool_decide_eq_true_2 by exact Hk.
    rewrite decide_True by exact He.
    replace (S (length done)) with (length (done ++ [s]))
      by (rewrite length_app; simpl; lia).
    apply IH; try assumption.
    rewrite Hm, <- app_assoc. reflexivity.
Qed.

End GroupConflict.

(** X6: where the code does abort on a conflict: when the first two
    entries that have a group disagree, and all entries up to the second
    of them are at the top depth, [Group] returns its argument. *)
Lemma Group_first_conflict_aborts slashes (pre mid rest : list Service) a b :
  Forall (top_ungrouped slashes) pre ->
  strings_Count (Service.Key a) "/" = slashes -> Service.Group a <> [] ->
  Forall (top_ungrouped slashes) mid ->
  strings_Count (Service.Key b) "/" = slashes ->
  Service.Group b <> [] -> Service.Group b <> Service.Group a ->
  Group (pre ++ a :: mid ++ b :: rest) = pre ++ a :: mid ++ b :: rest.
Proof.
  intros Hpre Hka Ha Hmid Hkb Hb Hne.
  assert (Hs : forall s0 tl, pre ++ a :: mid ++ b :: rest = s0 :: tl ->
                 strings_Count (Service.Key s0) "/" = slashes).
  { destruct pre as [|s pre']; simpl; intros s0 tl [= <- _]; [exact Hka|].
    apply Forall_cons in Hpre as [[Hk _] _]. exact Hk. }
  unfold Group.
  destruct (pre ++ a :: mid ++ b :: rest) as [|s0 tl] eqn:Hsx;
    [reflexivity|].
  rewrite (Hs s0 tl eq_refl), <- Hsx.
  apply (Group_loop_first_conflict slashes _ pre [] a mid b rest);
    (reflexivity || assumption).
Qed.

(** C1: three entries at the top depth, among them two with the
    differing groups [x] and [y]: the claim expects the input back, the
    code returns the first two entries only.  The second entry repeats
    the group of the first and so ends the first phase; the third is
    never compared, only filtered out. *)
Theorem Group_repeat_then_conflict :
  let sx := [svc "/a/b" "x"; svc "/a/b" "x"; svc "/a/b" "y"] in
  Forall (fun s => strings_Count (Service.Key s) "/" = 2) sx
  /\ Group sx = [svc "/a/b" "x"; svc "/a/b" "x"]
  /\ Group sx <> sx.
Proof.
  split; [repeat constructor|]. split; [vm_compute; reflexivity|].
  vm_compute. discriminate.
Qed.

(** C7: the example of a group with deeper entries. *)
Theorem Group_example :
  let sx := [svc "/a/b" "x"; svc "/a/b/c" ""; svc "/a/b/c" "x"; svc "/a/b/c" "z"] in
  Group sx = take 3 sx.
Proof. vm_compute. reflexivity. Qed.

(** ** The in-place reversal *)

Lemma reverse_loop_lt {A} (l : list A) i j :
  i < j -> reverse_loop l i j = reverse_loop (swap l i j) (S i) (j - 1).
Proof.
  intros Hlt. rewrite reverse_loop_equation_1.
  destruct (decide (i < j)); [reflexivity | contradiction].
Qed.

Lemma reverse_loop_ge {A} (l : list A) i j :
  ~ i < j -> reverse_loop l i j = l.
Proof.
  intros Hge. rewrite reverse_loop_equation_1.
  destruct (decide (i < j)); [contradiction | reflexivity].
Qed.

Lemma swap_ends {A} (pre m post : list A) a b :
  swap (pre ++ (a :: m ++ [b]) ++ post) (length pre) (length pre + S (length m))
  = (pre ++ [b]) ++ m ++ (a :: post).
Proof.
  unfold swap.
  assert (Hi : (pre ++ (a :: m ++ [b]) ++ post) !! length pre = Some a)
    by (simpl; apply list_lookup_middle; reflexivity).
  assert (Hj : (pre ++ (a :: m ++ [b]) ++ post) !! (length pre + S (length m))
               = Some b).
  { rewrite lookup_app_r by lia.
    replace (length pre + S (length m) - length pre) with (S (length m)) by lia.
    simpl. rewrite <- app_assoc. apply list_lookup_middle. reflexivity. }
  rewrite Hi, Hj.
  rewrite <- (Nat.add_0_r (length pre)) at 2.
  rewrite insert_app_r. simpl.
  rewrite insert_app_r. simpl.
  rewrite <- (Nat.add_0_r (length m)).
  rewrite <- app_assoc, insert_app_r. simpl.
  rewrite <- app_assoc. reflexivity.
Qed.

(** The loop reverses the cells from [i] to [j] and leaves the others. *)
Lemma reverse_loop_middle {A} (mid pre post : list A) :
  reverse_loop (pre ++ mid ++ post) (length pre) (length pre + length mid - 1)
  = pre ++ rev mid ++ post.
Proof.
  remember (length mid) as n eqn:Hn.
  revert mid pre post Hn.
  induction n as [n IH] using lt_wf_ind. intros mid pre post Hn.
  destruct mid as [|a mid].
  - rewrite reverse_loop_ge by (simpl in Hn; lia). reflexivity.
  - destruct mid as [|b m _] using rev_ind.
    + rewrite reverse_loop_ge by (simpl in Hn; lia). reflexivity.
    + simpl in Hn. rewrite length_app in Hn. simpl in Hn.
      rewrite reverse_loop_lt by lia.
      replace (length pre + n - 1) with (length pre + S (length m)) by lia.
      rewrite swap_ends.
      replace (length pre + S (length m) - 1)
        with (length (pre ++ [b]) + length m - 1)
        by (rewrite length_app; simpl; lia).
      replace (S (length pre)) with (length (pre ++ [b]))
        by (rewrite length_app; simpl; lia).
      rewrite (IH (length m)) by (lia || reflexivity).
      simpl. rewrite rev_unit. simpl.
      rewrite <- !app_assoc. reflexivity.
Qed.

Lemma reverse_loop_all {A} (l : list A) :
  reverse_loop l 0 (length l - 1) = rev l.
Proof.
  pose proof (reverse_loop_middle l [] []) as H. simpl in H.
  rewrite !app_nil_r in H. exact H.
Qed.

Lemma reverse_loop_tail {A} (x : A) (l : list A) :
  reverse_loop (x :: l) 1 (length (x :: l) - 1) = x :: rev l.
Proof.
  pose proof (reverse_loop_middle l [x] []) as H. simpl in H.
  rewrite !app_nil_r in H. simpl.
  replace (length l - 0) with (S (length l) - 1) by lia. exact H.
Qed.

(** ** [NextLabel] and [Split] *)

Module dns_facts.
Import dns.

Lemma IsFqdn_Fqdn s : IsFqdn (Fqdn s) = true.
Proof.
  unfold Fqdn. destruct (IsFqdn s) eqn:H; [exact H|].
  unfold IsFqdn. change (str ".") with ["."%char].
  rewrite last_snoc. reflexivity.
Qed.

Lemma Fqdn_fixed s : IsFqdn s = true -> Fqdn s = s.
Proof. unfold Fqdn. intros ->. reflexivity. Qed.

Lemma IsFqdn_inv s : IsFqdn s = true -> exists s', s = s' ++ str ".".
Proof.
  unfold IsFqdn. destruct s as [|c s'] using rev_ind; [discriminate|].
  rewrite last_snoc. intros H%bool_decide_eq_true. subst c. eauto.
Qed.

(** When a label start is found, the byte before it is a dot. *)
Lemma NextLabel_scan_dot rest i quote o :
  NextLabel_scan rest i quote = (o, false) ->
  rest !! (o - S i) = Some "."%char.
Proof.
  revert i quote. induction rest as [|c tl IH]; intros i quote; simpl.
  - discriminate.
  - destruct tl as [|c' tl']; [discriminate|].
    repeat case_decide; try destruct quote; intros Hs;
      try (pose proof (NextLabel_scan_progress _ _ _ _ Hs) as [Hlt _];
           apply IH in Hs;
           replace (o - S i) with (S (o - S (S i))) by lia; exact Hs).
    injection Hs as <-. rewrite Nat.sub_diag. simpl. congruence.
Qed.

Lemma NextLabel_false s off o :
  NextLabel s off = (o, false) ->
  off < o /\ o < length s /\ s !! (o - 1) = Some "."%char.
Proof.
  intros H. pose proof (NextLabel_progress _ _ _ H) as [H1 H2].
  repeat split; try assumption.
  unfold NextLabel in H. apply NextLabel_scan_dot in H.
  rewrite lookup_drop in H.
  replace (off + (o - S off)) with (o - 1) in H by lia. exact H.
Qed.

(** The end is reported with an offset at or past the length. *)
Lemma NextLabel_scan_end rest i quote o :
  NextLabel_scan rest i quote = (o, true) -> i + length rest <= o.
Proof.
  revert i quote. induction rest as [|c tl IH]; intros i quote; simpl.
  - intros [= <-]. lia.
  - destruct tl as [|c' tl']; [intros [= <-]; simpl; lia|].
    repeat case_decide; try destruct quote; intros Hs;
      try (apply IH in Hs; simpl in *; lia);
      discriminate.
Qed.

Lemma NextLabel_true s off o :
  NextLabel s off = (o, true) -> length s <= o.
Proof.
  unfold NextLabel. intros H%NextLabel_scan_end.
  rewrite length_drop in H. lia.
Qed.

(** From the last byte on, every call reports the end. *)
Lemma NextLabel_past s off :
  length s <= S off -> NextLabel s off = (S off, true).
Proof.
  intros H. unfold NextLabel.
  destruct (drop off s) as [|c [|c' tl]] eqn:Hd; try reflexivity.
  apply (f_equal length) in Hd. rewrite length_drop in Hd. simpl in Hd. lia.
Qed.

Lemma Split_loop_clause s off idx (x : nat * bool) (H : NextLabel s off = x) :
  Split_loop_unfold_clause_1 s off (exist _ x H) idx =
  match x with
  | (_, true) => idx
  | (off', false) => Split_loop s off' (idx ++ [off'])
  end.
Proof. destruct x as [o [|]]; reflexivity. Qed.

Lemma Split_loop_unfold s off idx :
  Split_loop s off idx =
  match NextLabel s off with
  | (_, true) => idx
  | (off', false) => Split_loop s off' (idx ++ [off'])
  end.
Proof.
  rewrite Split_loop_equation_1. unfold inspect.
  apply Split_loop_clause.
Qed.

(** [Split_loop] appends to [idx] the chain of offsets from [off]. *)
Lemma Split_loop_chain s off idx :
  exists rest, Split_loop s off idx = idx ++ rest /\ label_chain s off rest.
Proof.
  remember (length s - off) as n eqn:Hn. revert off idx Hn.
  induction n as [n IH] using lt_wf_ind. intros off idx Hn.
  rewrite Split_loop_unfold.
  destruct (NextLabel s off) as [o [|]] eqn:Hnl.
  - exists []. rewrite app_nil_r. simpl. rewrite Hnl. auto.
  - pose proof (NextLabel_progress _ _ _ Hnl) as [H1 H2].
    destruct (IH (length s - o) ltac:(lia) o (idx ++ [o]) eq_refl)
      as (rest & Heq & Hch).
    exists (o :: rest). split.
    + rewrite Heq, <- app_assoc. reflexivity.
    + simpl. auto.
Qed.

(** A chain is cut into labels without a panic, and what is left of [s]
    from the [k]-th offset on is the [k]-th label and those after it,
    joined by dots, followed by what [fqdnEnd] cuts off. *)
Lemma SplitDomainName_loop_spec s fqdnEnd :
  length s - 1 <= fqdnEnd -> fqdnEnd <= length s ->
  forall rest begin labels,
    begin < length s -> label_chain s begin rest ->
    exists lo ls c,
      SplitDomainName_loop s rest begin labels = Some (lo, labels ++ ls)
      /\ slice s lo fqdnEnd = Some c
      /\ length ls = length rest
      /\ forall k, k <= length rest ->
           strings_Join (drop k (ls ++ [c])) (str ".") ++ drop fqdnEnd s
           = drop (nth k (begin :: rest) 0) s.
Proof.
  intros Hlo Hhi. induction rest as [|e rest IH]; intros begin labels Hb Hch.
  - exists begin, [], (take (fqdnEnd - begin) (drop begin s)).
    simpl. rewrite app_nil_r. repeat split.
    + apply slice_Some; lia.
    + intros k Hk. replace k with 0 by lia. simpl.
      rewrite <- (take_drop (fqdnEnd - begin) (drop begin s)) at 2.
      rewrite drop_drop. do 2 f_equal. lia.
  - simpl in Hch. destruct Hch as [Hnl Hch].
    apply NextLabel_false in Hnl as (Hlt & Hlen & Hdot).
    destruct (IH e (labels ++ [take (e - 1 - begin) (drop begin s)])
                ltac:(lia) Hch) as (lo & ls & c & Hloop & Hc & Hls & Hk).
    exists lo, (take (e - 1 - begin) (drop begin s) :: ls), c.
    simpl. rewrite decide_False by lia.
    rewrite slice_Some by lia. rewrite Hloop, <- app_assoc.
    repeat split; [exact Hc | lia |].
    intros [|k] Hk'.
    + simpl. specialize (Hk 0 ltac:(lia)). simpl in Hk.
      destruct (ls ++ [c]) as [|x xs] eqn:Hx;
        [destruct ls; discriminate|].
      rewrite drop_0 in Hk. rewrite <- app_assoc, <- app_comm_cons, Hk.
      rewrite <- (take_drop (e - 1 - begin) (drop begin s)) at 2.
      f_equal. rewrite drop_drop.
      replace (begin + (e - 1 - begin)) with (e - 1) by lia.
      rewrite (drop_S _ _ _ Hdot). simpl.
      do 2 f_equal. lia.
    + simpl. apply (Hk k). simpl in Hk'. lia.
Qed.

(** [SplitDomainName] returns on every string.  On a name other than the
    empty string and the root it gives one label more than the chain of
    offsets from 0 has entries, and the labels from the [k]-th on spell
    out the name from the [k]-th offset on. *)
Lemma SplitDomainName_spec s :
  exists L, SplitDomainName s = Some L
    /\ (s = [] \/ s = str "." -> L = [])
    /\ (s <> [] -> s <> str "." ->
        exists rest, label_chain s 0 rest
          /\ length L = S (length rest)
          /\ forall k, k <= length rest ->
               strings_Join (drop k L) (str ".")
                 ++ (if IsFqdn s then str "." else [])
               = drop (nth k (0 :: rest) 0) s).
Proof.
  unfold SplitDomainName.
  destruct (decide (length s = 0)) as [H0|H0].
  { exists []. repeat split. intros Hne. destruct s; [contradiction|discriminate]. }
  unfold Split. destruct (decide (s = str ".")) as [Hr|Hr].
  { exists []. repeat split. intros _ Hne. contradiction. }
  destruct (Split_loop_chain s 0 [0]) as (rest & -> & Hch). simpl.
  set (fqdnEnd := if IsFqdn s then length s - 1 else length s).
  assert (Hend : drop fqdnEnd s = if IsFqdn s then str "." else []).
  { subst fqdnEnd. destruct (IsFqdn s) eqn:Hf.
    - apply IsFqdn_inv in Hf as [s' ->]. rewrite length_app. simpl.
      replace (length s' + 1 - 1) with (length s') by lia.
      rewrite drop_app_length. reflexivity.
    - apply drop_all. }
  destruct (SplitDomainName_loop_spec s fqdnEnd
              ltac:(subst fqdnEnd; destruct (IsFqdn s); lia)
              ltac:(subst fqdnEnd; destruct (IsFqdn s); lia)
              rest 0 [] ltac:(lia) Hch)
    as (lo & ls & c & Hloop & Hc & Hls & Hk).
  rewrite Hloop, Hc. simpl. exists (ls ++ [c]). repeat split.
  - intros [->| ->]; [simpl in H0; lia | contradiction].
  - intros _ _. exists rest. repeat split; [exact Hch | |].
    + rewrite length_app. simpl. lia.
    + intros k Hk'. specialize (Hk k Hk'). rewrite Hend in Hk. exact Hk.
Qed.

Lemma SplitDomainName_total s : is_Some (SplitDomainName s).
Proof. destruct (SplitDomainName_spec s) as (L & -> & _). eauto. Qed.

(** Once the end was reported it is reported on every later turn. *)
Lemma NewSRV_loop_end host n off :
  length host <= off -> snd (NewSRV_loop host n off true) = true.
Proof.
  revert off. induction n as [|n IH]; intros off Hoff; [reflexivity|].
  simpl. rewrite NextLabel_past by lia. apply IH. lia.
Qed.

(** The loop of [NewSRV] walks the same chain of offsets as [Split]. *)
Lemma NewSRV_loop_chain host rest :
  forall k off e, label_chain host off rest ->
    if decide (k < length rest)
    then NewSRV_loop host (S k) off e = (nth k rest 0, false)
    else snd (NewSRV_loop host (S k) off e) = true.
Proof.
  induction rest as [|o rest IH]; intros k off e Hch; simpl in Hch.
  - rewrite decide_False by (simpl; lia). simpl.
    destruct (NextLabel host off) as [o b] eqn:Hnl. simpl in Hch. subst b.
    apply NewSRV_loop_end. eapply NextLabel_true, Hnl.
  - destruct Hch as [Hnl Hch]. simpl NewSRV_loop. rewrite Hnl.
    destruct k as [|k].
    + rewrite decide_True by (simpl; lia). reflexivity.
    + specialize (IH k o false Hch). simpl length.
      destruct (decide (k < length rest)).
      * rewrite decide_True by lia. exact IH.
      * rewrite decide_False by lia. exact IH.
Qed.

End dns_facts.

(** ** Record synthesis *)

Lemma uint16_small (x : Z) : (0 <= x < 65536)%Z -> uint16 x = x.
Proof. intros H. unfold uint16. apply Z.mod_small. exact H. Qed.

(** Where [NewSRV] cuts the host: at the start of the label with index
    [TargetStrip] when there is one, at 0 otherwise. *)
Lemma NewSRV_offset (host : gostring) (k : nat) :
  dns.IsFqdn host = true ->
  exists labels off e,
    dns.SplitDomainName host = Some labels
    /\ NewSRV_loop host k 0 false = (off, e)
    /\ drop (if e then 0 else off) host
       = (if decide (k < length labels) then dotted (drop k labels) else host)
    /\ (if e then 0 else off) <= length host.
Proof.
  intros Hfq.
  destruct (dns_facts.SplitDomainName_spec host) as (L & HL & Hroot & Hname).
  rewrite Hfq in Hname.
  assert (Hne : host <> []) by (intros ->; discriminate).
  destruct (NewSRV_loop host k 0 false) as [off e] eqn:Hloop.
  exists L, off, e. split; [exact HL|]. split; [reflexivity|].
  destruct (decide (host = str ".")) as [Hdot|Hdot].
  - (* the root: no label, every call reports the end *)
    rewrite (Hroot (or_intror Hdot)). simpl length.
    rewrite decide_False by lia.
    destruct k as [|k].
    + simpl in Hloop. injection Hloop as <- <-. split; [reflexivity | lia].
    + assert (Hch : label_chain host 0 []) by (subst host; reflexivity).
      pose proof (dns_facts.NewSRV_loop_chain host [] k 0 false Hch) as Hc.
      rewrite decide_False in Hc by (simpl; lia).
      rewrite Hloop in Hc. simpl in Hc. subst e.
      split; [reflexivity | lia].
  - destruct (Hname Hne Hdot) as (rest & Hch & Hlen & Hk).
    destruct k as [|k].
    + simpl in Hloop. injection Hloop as <- <-.
      rewrite decide_True by lia. split; [|lia].
      symmetry. apply (Hk 0). lia.
    + pose proof (dns_facts.NewSRV_loop_chain host rest k 0 false Hch) as Hc.
      rewrite Hloop in Hc.
      destruct (decide (k < length rest)) as [Hlt|Hge].
      * injection Hc as -> ->. rewrite decide_True by lia.
        specialize (Hk (S k) ltac:(lia)). simpl nth in Hk.
        split; [symmetry; exact Hk|].
        destruct (decide (nth k rest 0 <= length host)) as [|Hout];
          [assumption|].
        assert (Hd : drop (nth k rest 0) host = []) by (apply drop_ge; lia).
        rewrite Hd in Hk. destruct (strings_Join _ _); discriminate.
      * simpl in Hc. subst e. rewrite decide_False by lia.
        split; [reflexivity | lia].
Qed.

(** C5: [NewSRV] returns on every service.  The header carries the name,
    type SRV, class Internet and the service's TTL; priority and port are
    the service's (as [uint16]); the weight is the argument.  With [k]
    the value of [TargetStrip], the target is the fully-qualified host
    without its leftmost [k] labels when a label is left after them, and
    the whole fully-qualified host otherwise; it is never empty. *)
Theorem NewSRV_spec (s : Service) (name : gostring) (weight : Z) :
  let host := dns.Fqdn (Service.Host s) in
  let k := Z.to_nat (Service.TargetStrip s) in
  exists labels r,
    dns.SplitDomainName host = Some labels
    /\ NewSRV s name weight = Some r
    /\ RR.SRV_Hdr r = RR.mkHeader name RR.TypeSRV RR.ClassINET (Service.Ttl s)
    /\ RR.SRV_Priority r = uint16 (Service.Priority s)
    /\ RR.SRV_Port r = uint16 (Service.Port s)
    /\ RR.SRV_Weight r = weight
    /\ RR.SRV_Target r
       = (if decide (k < length labels) then dotted (drop k labels) else host)
    /\ RR.SRV_Target r <> [].
Proof.
  intros host k.
  destruct (NewSRV_offset host k (dns_facts.IsFqdn_Fqdn _))
    as (labels & off & e & HL & Hloop & Hdrop & Hle).
  unfold NewSRV. fold host. fold k. rewrite Hloop.
  rewrite slice_from_Some by exact Hle.
  exists labels. eexists. split; [exact HL|]. split; [reflexivity|].
  simpl. repeat split. 1: exact Hdrop.
  rewrite Hdrop. case_decide.
  - unfold dotted. destruct (strings_Join _ _); discriminate.
  - unfold host, dns.Fqdn. destruct (dns.IsFqdn (Service.Host s)) eqn:Hf.
    + intros Hnil. rewrite Hnil in Hf. discriminate.
    + destruct (Service.Host s); discriminate.
Qed.

(** C9: with [TargetStrip] 1 and the synthesized name [a.b.c.d.] as host,
    the target of the SRV record is [b.c.d.]. *)
Theorem NewSRV_strip_one port prio w text ttl grp key name weight :
  option_map RR.SRV_Target
    (NewSRV (Service.mk (str "a.b.c.d.") port prio w text ttl 1 grp key)
            name weight)
  = Some (str "b.c.d.").
Proof. reflexivity. Qed.

(** Stripping as many labels as the name has, or more, leaves the name
    whole. *)
Example NewSRV_strip_all name weight :
  option_map RR.SRV_Target
    (NewSRV (Service.mk (str "a.b.c.d") 0 0 0 [] 0 4 [] []) name weight)
  = Some (str "a.b.c.d.")
  /\ option_map RR.SRV_Target
       (NewSRV (Service.mk (str "a.b.c.d") 0 0 0 [] 0 7 [] []) name weight)
     = Some (str "a.b.c.d.").
Proof. split; reflexivity. Qed.

(** C10: the headers of the other builders: the name, the builder's own
    type, class Internet, and the service's TTL, except for [NewPTR],
    which takes the TTL from its argument and points to the
    fully-qualified host. *)
Theorem builders_header (s : Service) (n : gostring) (ip : list Z)
    (target : gostring) (ttl : Z) :
  RR.A_Hdr (NewA s n ip) = RR.mkHeader n RR.TypeA RR.ClassINET (Service.Ttl s)
  /\ RR.AAAA_Hdr (NewAAAA s n ip)
     = RR.mkHeader n RR.TypeAAAA RR.ClassINET (Service.Ttl s)
  /\ RR.CNAME_Hdr (NewCNAME s n target)
     = RR.mkHeader n RR.TypeCNAME RR.ClassINET (Service.Ttl s)
  /\ RR.NS_Hdr (NewNS s n target)
     = RR.mkHeader n RR.TypeNS RR.ClassINET (Service.Ttl s)
  /\ option_map RR.TXT_Hdr (NewTXT s n)
     = Some (RR.mkHeader n RR.TypeTXT RR.ClassINET (Service.Ttl s))
  /\ RR.PTR_Hdr (NewPTR s n ttl) = RR.mkHeader n RR.TypePTR RR.ClassINET ttl
  /\ RR.PTR_Ptr (NewPTR s n ttl) = dns.Fqdn (Service.Host s)
  /\ dns.IsFqdn (RR.PTR_Ptr (NewPTR s n ttl)) = true.
Proof.
  repeat split.
  - unfold NewTXT.
    destruct (split255_total (Service.Text s)) as [sx ->]. reflexivity.
  - apply dns_facts.IsFqdn_Fqdn.
Qed.

(** ** Splitting and joining *)

Lemma strings_Split_not_nil s sep : strings_Split s sep <> [].
Proof.
  destruct s as [|c r]; simpl; [discriminate|].
  case_decide; [discriminate|]. destruct (strings_Split r sep); discriminate.
Qed.

Lemma strings_Split_free s sep : sep ∉ s -> strings_Split s sep = [s].
Proof.
  induction s as [|c r IH]; intros Hfree; [reflexivity|].
  apply not_elem_of_cons in Hfree as [Hc Hr]. simpl.
  rewrite decide_False by congruence. rewrite IH by exact Hr. reflexivity.
Qed.

(** A separator ends the pieces of what is before it. *)
Lemma strings_Split_app a b sep :
  strings_Split (a ++ sep :: b) sep = strings_Split a sep ++ strings_Split b sep.
Proof.
  induction a as [|c r IH]; simpl.
  - rewrite decide_True by reflexivity. reflexivity.
  - case_decide; [rewrite IH; reflexivity|].
    rewrite IH. pose proof (strings_Split_not_nil r sep).
    destruct (strings_Split r sep); [contradiction | reflexivity].
Qed.

Lemma strings_Join_cons e r sep :
  r <> [] -> strings_Join (e :: r) sep = e ++ sep ++ strings_Join r sep.
Proof. destruct r; [contradiction | reflexivity]. Qed.

(** Splitting undoes joining when no element holds the separator. *)
Lemma strings_Split_Join xs sep :
  xs <> [] -> Forall (fun x => sep ∉ x) xs ->
  strings_Split (strings_Join xs [sep]) sep = xs.
Proof.
  induction xs as [|x xs IH]; intros Hne Hfree; [contradiction|].
  apply Forall_cons in Hfree as [Hx Hxs].
  destruct xs as [|y ys].
  - simpl. apply strings_Split_free, Hx.
  - rewrite strings_Join_cons by discriminate.
    change ([sep] ++ ?t) with (sep :: t).
    rewrite strings_Split_app, strings_Split_free by exact Hx.
    rewrite IH by (discriminate || exact Hxs). reflexivity.
Qed.

Lemma strings_Join_snoc xs x sep :
  xs <> [] -> strings_Join (xs ++ [x]) sep = strings_Join xs sep ++ sep ++ x.
Proof.
  induction xs as [|y ys IH]; intros Hne; [contradiction|].
  destruct ys as [|z zs]; [reflexivity|].
  change ((y :: z :: zs) ++ [x]) with (y :: ((z :: zs) ++ [x])).
  rewrite strings_Join_cons by (destruct zs; discriminate).
  rewrite IH by discriminate.
  rewrite (strings_Join_cons y (z :: zs)) by discriminate.
  rewrite <- !app_assoc. reflexivity.
Qed.

(** ** Names without escapes *)

Module dns_plain.
Import dns dns_facts.

Lemma not_elem_of_drop {A} (x : A) n (l : list A) : x ∉ l -> x ∉ drop n l.
Proof.
  intros Hl Hd. apply Hl. rewrite <- (take_drop n l).
  apply elem_of_app. right. exact Hd.
Qed.

Lemma not_elem_of_take_le {A} (x : A) n m (l : list A) :
  n <= m -> x ∉ take m l -> x ∉ take n l.
Proof.
  intros Hle Hm Hn. apply Hm.
  apply elem_of_take in Hn as (i & Hi & Hlt).
  apply elem_of_take. exists i. split; [exact Hi | lia].
Qed.

(** Without a backslash [quote] stays clear: the scan stops at the first
    dot, so no dot lies between the offset and the one returned. *)
Lemma NextLabel_scan_plain rest i o e :
  "\"%char ∉ rest ->
  NextLabel_scan rest i false = (o, e) ->
  S i <= o /\ "."%char ∉ take (o - S i) rest.
Proof.
  revert i. induction rest as [|c tl IH]; intros i Hbs; simpl.
  - intros [= <- <-]. rewrite Nat.sub_diag. split; [lia | apply not_elem_of_nil].
  - apply not_elem_of_cons in Hbs as [Hc Htl].
    destruct tl as [|c' tl'].
    { intros [= <- <-]. rewrite Nat.sub_diag.
      split; [lia | apply not_elem_of_nil]. }
    rewrite decide_False by congruence.
    destruct (decide (c = "."%char)) as [Hd|Hd].
    + intros [= <- <-]. rewrite Nat.sub_diag.
      split; [lia | apply not_elem_of_nil].
    + intros Hs. apply IH in Hs as [Hle Hfree]; [|exact Htl].
      split; [lia|].
      replace (o - S i) with (S (o - S (S i))) by lia.
      rewrite firstn_cons. apply not_elem_of_cons. split; [congruence | exact Hfree].
Qed.

Lemma NextLabel_plain s off o e :
  "\"%char ∉ s -> NextLabel s off = (o, e) ->
  "."%char ∉ take (o - S off) (drop off s).
Proof.
  intros Hbs Hnl. unfold NextLabel in Hnl.
  apply NextLabel_scan_plain in Hnl as [_ H]; [exact H|].
  apply not_elem_of_drop, Hbs.
Qed.

(** The labels cut by the loop of [SplitDomainName] hold no dot, and the
    loop stops at an offset from which [NextLabel] reports the end. *)
Lemma SplitDomainName_loop_dotfree s :
  "\"%char ∉ s ->
  forall rest begin labels lo out,
    label_chain s begin rest ->
    SplitDomainName_loop s rest begin labels = Some (lo, out) ->
    Forall (fun l => "."%char ∉ l) labels ->
    Forall (fun l => "."%char ∉ l) out /\ snd (NextLabel s lo) = true.
Proof.
  intros Hbs. induction rest as [|e rest IH];
    intros begin labels lo out Hch Hloop Hlabels; simpl in Hch, Hloop.
  - injection Hloop as <- <-. auto.
  - destruct Hch as [Hnl Hch].
    destruct (decide (e = 0)); [discriminate|].
    destruct (slice s begin (e - 1)) as [c|] eqn:Hc; [|discriminate].
    apply slice_inv in Hc as (_ & _ & ->).
    apply (IH _ _ _ _ Hch Hloop).
    apply Forall_app. split; [exact Hlabels|].
    constructor; [|constructor].
    replace (e - 1 - begin) with (e - S begin) by lia.
    eapply NextLabel_plain; eassumption.
Qed.

Lemma SplitDomainName_dotfree s L :
  "\"%char ∉ s -> IsFqdn s = true -> SplitDomainName s = Some L ->
  Forall (fun l => "."%char ∉ l) L.
Proof.
  intros Hbs Hfq. unfold SplitDomainName.
  case_decide; [intros [= <-]; constructor|].
  unfold Split. case_decide; [intros [= <-]; constructor|].
  destruct (Split_loop_chain s 0 [0]) as (rest & -> & Hch). simpl.
  destruct (SplitDomainName_loop s rest 0 []) as [[lo out]|] eqn:Hloop;
    [|discriminate].
  rewrite Hfq.
  destruct (slice s lo (length s - 1)) as [c|] eqn:Hc; [|discriminate].
  intros [= <-].
  destruct (SplitDomainName_loop_dotfree s Hbs _ _ _ _ _ Hch Hloop)
    as [Hout Hend]; [constructor|].
  apply Forall_app. split; [exact Hout|]. constructor; [|constructor].
  apply slice_inv in Hc as (Hlo & _ & ->).
  destruct (NextLabel s lo) as [o e] eqn:Hnl. simpl in Hend. subst e.
  pose proof (NextLabel_true _ _ _ Hnl).
  eapply not_elem_of_take_le; [|eapply NextLabel_plain; eassumption]. lia.
Qed.

End dns_plain.

(** ** [Path] and [Domain] on plain names *)

Section PlainNames.

Variable ls : list gostring.
Hypothesis Hplain : Forall plain_label ls.

Lemma strings_Join_free (c : ascii) (sep : gostring) (xs : list gostring) :
  c ∉ sep -> Forall (fun x => c ∉ x) xs -> c ∉ strings_Join xs sep.
Proof.
  intros Hsep. induction xs as [|x xs' IH]; intros Hxs.
  - apply not_elem_of_nil.
  - apply Forall_cons in Hxs as [Hx Hxs'].
    destruct xs' as [|y ys]; [exact Hx|].
    rewrite strings_Join_cons by discriminate.
    rewrite !not_elem_of_app. auto.
Qed.

Lemma dotted_no_backslash : "\"%char ∉ dotted ls.
Proof.
  unfold dotted. apply not_elem_of_app. split.
  - apply strings_Join_free.
    + intros H. apply list_elem_of_singleton in H. discriminate.
    + eapply Forall_impl; [exact Hplain|]. intros l (_ & _ & H & _). exact H.
  - intros H. apply list_elem_of_singleton in H. discriminate.
Qed.

Lemma dotted_IsFqdn : dns.IsFqdn (dotted ls) = true.
Proof.
  unfold dotted, dns.IsFqdn. change (str ".") with ["."%char].
  rewrite last_snoc. reflexivity.
Qed.

Lemma strings_Join_plain_not_nil (sep : gostring) :
  ls <> [] -> strings_Join ls sep <> [].
Proof.
  destruct Hplain as [|l r (Hl & _) _]; [contradiction|]. intros _.
  destruct r; simpl; [exact Hl|].
  destruct l; [contradiction | discriminate].
Qed.

(** [SplitDomainName] gives back the labels a plain name is made of. *)
Lemma SplitDomainName_dotted : dns.SplitDomainName (dotted ls) = Some ls.
Proof.
  destruct (decide (ls = [])) as [->|Hne]; [reflexivity|].
  pose proof (strings_Join_plain_not_nil (str ".") Hne) as Hjoin.
  destruct (dns_facts.SplitDomainName_spec (dotted ls))
    as (L & HL & _ & Hname).
  rewrite HL. f_equal.
  destruct Hname as (rest & _ & Hlen & Hk).
  - unfold dotted. destruct (strings_Join ls (str ".")); [contradiction|discriminate].
  - unfold dotted. intros Heq.
    apply (app_inv_tail _ _ []) in Heq. contradiction.
  - specialize (Hk 0 ltac:(lia)). rewrite dotted_IsFqdn in Hk.
    simpl in Hk. rewrite drop_0 in Hk.
    apply app_inv_tail in Hk.
    pose proof (dns_plain.SplitDomainName_dotfree _ _
                  dotted_no_backslash dotted_IsFqdn HL) as Hfree.
    rewrite <- (strings_Split_Join L "."%char);
      [|destruct L; [discriminate | discriminate] | exact Hfree].
    change ["."%char] with (str ".") in *. rewrite Hk.
    apply strings_Split_Join; [exact Hne|].
    eapply Forall_impl; [exact Hplain|]. intros l (_ & H & _). exact H.
Qed.

End PlainNames.

Lemma plain_label_element (e : gostring) :
  plain_label e -> e <> [] /\ e <> str "." /\ e <> str "..".
Proof.
  intros (Hne & Hdot & _). repeat split; [exact Hne | |];
    intros ->; apply Hdot; repeat constructor.
Qed.

(** [path.Clean] keeps plain elements as they are. *)
Lemma Clean_fold_plain rooted (m out : list gostring) (dotdot : nat) :
  Forall plain_label m ->
  fold_left (Clean_step rooted) m (out, dotdot) = (out ++ m, dotdot).
Proof.
  revert out. induction m as [|e m IH]; intros out Hm.
  - rewrite app_nil_r. reflexivity.
  - apply Forall_cons in Hm as [He Hm].
    apply plain_label_element in He as (H1 & H2 & H3).
    simpl. rewrite !decide_False by assumption.
    rewrite IH by exact Hm. rewrite <- app_assoc. reflexivity.
Qed.

Lemma path_Join_plain (m : list gostring) :
  Forall plain_label m ->
  path_Join (skydns_root :: m)
  = "/"%char :: strings_Join (str "skydns" :: m) (str "/").
Proof.
  intros Hm.
  assert (Hslash : Forall (fun x : gostring => "/"%char ∉ x) m).
  { eapply Forall_impl; [exact Hm|]. intros l (_ & _ & _ & H). exact H. }
  assert (Hsplit : strings_Split (strings_Join (skydns_root :: m) (str "/")) "/"
                   = [[]; str "skydns"; []] ++ m).
  { destruct m as [|x xs]; [reflexivity|].
    rewrite strings_Join_cons by discriminate.
    change (skydns_root ++ str "/" ++ ?t) with (str "/skydns/" ++ "/"%char :: t).
    rewrite strings_Split_app.
    change (str "/") with ["/"%char].
    rewrite strings_Split_Join by (discriminate || exact Hslash).
    reflexivity. }
  unfold path_Join. rewrite decide_False by discriminate.
  unfold path_Clean.
  rewrite decide_False
    by (destruct m as [|? [|? ?]]; discriminate).
  replace (head (strings_Join (skydns_root :: m) (str "/")))
    with (Some "/"%char) by (destruct m as [|? [|? ?]]; reflexivity).
  rewrite bool_decide_eq_true_2 by reflexivity.
  rewrite Hsplit, fold_left_app. simpl fold_left at 2.
  rewrite Clean_fold_plain by exact Hm. reflexivity.
Qed.

Lemma Path_dotted (ls : list gostring) :
  Forall plain_label ls -> Path (dotted ls) = Some (key_of ls).
Proof.
  intros Hls. unfold Path. rewrite SplitDomainName_dotted by exact Hls.
  rewrite reverse_loop_all. rewrite path_Join_plain; [reflexivity|].
  apply Forall_rev, Hls.
Qed.

Lemma IsFqdn_plain_end (pre x : gostring) :
  x <> [] -> "."%char ∉ x -> dns.IsFqdn (pre ++ x) = false.
Proof.
  destruct x as [|c x' _] using rev_ind; [contradiction|]. intros _ Hfree.
  unfold dns.IsFqdn. rewrite app_assoc, last_snoc.
  apply bool_decide_eq_false. intros ->.
  apply Hfree, elem_of_app. right. constructor.
Qed.

Lemma Fqdn_Join_plain (ls : list gostring) :
  Forall plain_label ls -> dns.Fqdn (strings_Join ls (str ".")) = dotted ls.
Proof.
  intros Hls. destruct ls as [|x ls' _] using rev_ind; [reflexivity|].
  apply Forall_app in Hls as [_ Hx]. apply Forall_cons in Hx as [(Hne & Hdot & _) _].
  unfold dns.Fqdn, dotted.
  destruct ls' as [|y ys].
  - pose proof (IsFqdn_plain_end [] x Hne Hdot) as Hx.
    simpl in *. rewrite Hx. reflexivity.
  - rewrite strings_Join_snoc by discriminate.
    rewrite app_assoc, IsFqdn_plain_end by assumption. reflexivity.
Qed.

Lemma Domain_key (ls : list gostring) :
  Forall plain_label ls -> Domain (key_of ls) = Some (dotted ls).
Proof.
  intros Hls. unfold Domain, key_of.
  assert (Hsplit :
    strings_Split ("/"%char :: strings_Join (str "skydns" :: rev ls) (str "/")) "/"
    = [] :: str "skydns" :: rev ls).
  { etrans; [apply (strings_Split_app [] _ "/"%char)|].
    change (str "/") with ["/"%char].
    rewrite strings_Split_Join; [reflexivity | discriminate |].
    constructor.
    - intros H. repeat (apply elem_of_cons in H as [H|H]; [discriminate|]).
      apply elem_of_nil in H. exact H.
    - apply Forall_rev. eapply Forall_impl; [exact Hls|].
      intros l (_ & _ & _ & H). exact H. }
  rewrite Hsplit, reverse_loop_tail.
  change (rev (str "skydns" :: rev ls)) with (rev (rev ls) ++ [str "skydns"]).
  rewrite rev_involutive.
  rewrite slice_Some by (simpl; rewrite length_app; simpl; lia).
  simpl. rewrite length_app. simpl.
  replace (length ls + 1 - 0 - 1) with (length ls) by lia.
  rewrite drop_0, take_app_length.
  change ["."%char] with (str ".").
  rewrite Fqdn_Join_plain by exact Hls. reflexivity.
Qed.

(** C4: a fully-qualified name made of plain labels, none of them the
    wildcard, is mapped by [Path] to a key that [Domain] maps back to the
    name; so [Path] after [Domain] is the identity on these keys, too. *)
Theorem Domain_Path_inverse (ls : list gostring) :
  Forall plain_label ls -> str "*" ∉ ls ->
  exists key,
    Path (dotted ls) = Some key
    /\ Domain key = Some (dotted ls)
    /\ dns.Fqdn (dotted ls) = dotted ls
    /\ (forall d, Domain key = Some d -> Path d = Some key).
Proof.
  intros Hls _. exists (key_of ls).
  pose proof (Path_dotted ls Hls) as HP.
  pose proof (Domain_key ls Hls) as HD.
  repeat split; try assumption.
  - apply dns_facts.Fqdn_fixed, dotted_IsFqdn.
  - intros d Hd. rewrite HD in Hd. injection Hd as <-. exact HP.
Qed.

Lemma Domain_Path_inverse_witness :
  exists key,
    Path (str "service.staging.skydns.local.") = Some key
    /\ Domain key = Some (str "service.staging.skydns.local.")
    /\ dns.Fqdn (str "service.staging.skydns.local.")
       = str "service.staging.skydns.local."
    /\ (forall d, Domain key = Some d -> Path d = Some key).
Proof.
  apply (Domain_Path_inverse
           [str "service"; str "staging"; str "skydns"; str "local"]).
  - repeat constructor; try discriminate;
      intros H; repeat (apply elem_of_cons in H as [H|H]; [discriminate|]);
      apply elem_of_nil in H; exact H.
  - intros H; repeat (apply elem_of_cons in H as [H|H]; [discriminate|]);
      apply elem_of_nil in H; exact H.
Defined.

(** Why a plain label may not hold a slash: [Domain] reads it as two key
    elements. *)
Remark Domain_Path_slash_label :
  Path (str "a/b.c.") = Some (str "/skydns/c/a/b")
  /\ Domain (str "/skydns/c/a/b") = Some (str "b.a.c.").
Proof. split; reflexivity. Qed.

(** [Domain] panics on a string without a slash. *)
Remark Domain_no_slash : Domain (str "skydns") = None.
Proof. reflexivity. Qed.

(** ** [PathWithWildcard] *)

(** The [range] loop, having passed the elements of [done] without
    finding the wildcard. *)
Lemma PathWithWildcard_loop_spec (todo done : list gostring) :
  (str "*" ∉ todo ->
   PathWithWildcard_loop (done ++ todo) todo (length done)
   = Some (path_Join (skydns_root :: done ++ todo), false))
  /\ (forall pre post, todo = pre ++ str "*" :: post -> str "*" ∉ pre ->
      PathWithWildcard_loop (done ++ todo) todo (length done)
      = Some (path_Join (skydns_root :: done ++ pre), true)).
Proof.
  revert done. induction todo as [|k todo IH]; intros done.
  - split; [reflexivity|]. intros [|? ?] post H; discriminate.
  - specialize (IH (done ++ [k])).
    rewrite <- app_assoc, length_app in IH. simpl in IH.
    rewrite Nat.add_1_r in IH. destruct IH as [IH1 IH2].
    split.
    + intros Hk. apply not_elem_of_cons in Hk as [Hk Htodo].
      simpl. rewrite decide_False by (intros Heq; apply Hk; symmetry; exact Heq).
      apply IH1, Htodo.
    + intros pre post Heq Hpre. simpl.
      destruct pre as [|p pre].
      * simpl in Heq. injection Heq as -> ->.
        rewrite decide_True by reflexivity.
        rewrite slice_to_Some by (rewrite length_app; lia).
        rewrite take_app_length, app_nil_r. reflexivity.
      * simpl in Heq. injection Heq as -> ->.
        apply not_elem_of_cons in Hpre as [Hp Hpre].
        rewrite decide_False by (intros Heq; apply Hp; symmetry; exact Heq).
        rewrite (IH2 pre post eq_refl Hpre), <- app_assoc. reflexivity.
Qed.

(** C8: with [l] the labels of the name: when none of them is the
    wildcard, [PathWithWildcard] gives the result of [Path] and [false];
    when the reversed labels are [pre], then the wildcard, then [post],
    with no wildcard in [pre], it gives the key built from [pre] alone
    and [true]. *)
Theorem PathWithWildcard_spec (s : gostring) :
  exists l, dns.SplitDomainName s = Some l
    /\ (str "*" ∉ l ->
        exists p, Path s = Some p /\ PathWithWildcard s = Some (p, false))
    /\ (forall pre post, rev l = pre ++ str "*" :: post -> str "*" ∉ pre ->
        PathWithWildcard s = Some (path_Join (skydns_root :: pre), true)).
Proof.
  destruct (dns_facts.SplitDomainName_total s) as [l Hl].
  exists l. split; [exact Hl|].
  unfold Path, PathWithWildcard. rewrite Hl, reverse_loop_all.
  destruct (PathWithWildcard_loop_spec (rev l) []) as [H1 H2].
  simpl in H1, H2. split.
  - intros Hfree. eexists. split; [reflexivity|].
    apply H1. intros Hin. apply Hfree.
    apply list_elem_of_In. apply list_elem_of_In, in_rev in Hin. exact Hin.
  - exact H2.
Qed.

(** * Further properties of the code *)

(** ** [Group] as a pure scan, and what it leaves in the array *)

Lemma drop_cons_inv {A} (l t : list A) (x : A) i :
  drop i l = x :: t -> l !! i = Some x /\ drop (S i) l = t /\ i < length l.
Proof.
  intros H.
  assert (Hi : l !! i = Some x).
  { rewrite <- (Nat.add_0_r i), <- lookup_drop, H. reflexivity. }
  split; [exact Hi|]. split.
  - rewrite (drop_S _ _ _ Hi) in H. congruence.
  - eapply lookup_lt_Some, Hi.
Qed.

Section GroupPhases.

Variable slashes : nat.
Variable orig : list Service.

(** The second phase.  [ret] is the first [n] cells of the array; the
    cells from [n] on are still those of the input, so the entries yet
    to be read are intact.  The loop ends with the kept entries in the
    first cells of the array. *)
Lemma Group_loop_filter (g : gostring) :
  g <> [] ->
  forall todo m n i,
    n <= i -> drop i m = todo -> drop n m = drop n orig ->
    length m = length orig ->
    Group_loop slashes (length todo) i (mkState m g false (View n))
    = take n m ++ filter (keeps g) todo
    /\ Group_loop_array slashes (length todo) i (mkState m g false (View n))
       = (take n m ++ filter (keeps g) todo)
           ++ drop (n + length (filter (keeps g) todo)) orig.
Proof.
  intros Hg. induction todo as [|s todo IH]; intros m n i Hni Hdrop Hrest Hlen.
  - simpl. rewrite !app_nil_r, Nat.add_0_r, <- Hrest, take_drop. auto.
  - apply drop_cons_inv in Hdrop as (Hs & Hdrop & Hi).
    simpl Group_loop. simpl Group_loop_array. simpl mem. rewrite Hs.
    unfold Group_body, Group_descend. simpl.
    rewrite decide_False by exact Hg.
    destruct (decide (Service.Group s = [] \/ Service.Group s = g)) as [Hk|Hk].
    + rewrite decide_True by lia.
      rewrite filter_cons_True by exact Hk.
      destruct (IH (<[n:=s]> m) (S n) (S i)) as [IHr IHa].
      * lia.
      * rewrite drop_insert_lt by lia. exact Hdrop.
      * rewrite drop_insert_lt by lia.
        replace (S n) with (n + 1) by lia.
        rewrite <- !drop_drop, Hrest. reflexivity.
      * rewrite length_insert. exact Hlen.
      * rewrite IHr, IHa.
        rewrite (take_S_r _ _ s)
          by (apply list_lookup_insert_eq; lia).
        rewrite take_insert_ge by lia.
        simpl length. rewrite <- !app_assoc.
        replace (S n + length (filter (keeps g) todo))
          with (n + S (length (filter (keeps g) todo))) by lia.
        auto.
    + rewrite filter_cons_False by exact Hk.
      apply IH; (lia || assumption).
Qed.

(** The first turn of the second phase: [ret = sx[:i]], then the entry
    at [i] is kept or not. *)
Lemma Group_first_descent (g : gostring) s todo i :
  g <> [] -> drop i orig = s :: todo ->
  match Group_descend i s (mkState orig g true (Fresh [])) with
  | inl st' => Group_loop slashes (length todo) (S i) st'
  | inr r => r
  end = take i orig ++ filter (keeps g) (s :: todo)
  /\ match Group_descend i s (mkState orig g true (Fresh [])) with
     | inl st' => Group_loop_array slashes (length todo) (S i) st'
     | inr _ => orig
     end = (take i orig ++ filter (keeps g) (s :: todo))
             ++ drop (i + length (filter (keeps g) (s :: todo))) orig.
Proof.
  intros Hg Hdrop. apply drop_cons_inv in Hdrop as (Hs & Hdrop & Hi).
  unfold Group_descend. simpl.
  rewrite decide_False by exact Hg.
  destruct (decide (Service.Group s = [] \/ Service.Group s = g)) as [Hk|Hk].
  - rewrite decide_True by lia. rewrite list_insert_id by exact Hs.
    rewrite filter_cons_True by exact Hk.
    destruct (Group_loop_filter g Hg todo orig (S i) (S i))
      as [Hr Ha]; [lia | exact Hdrop | reflexivity | reflexivity |].
    rewrite Hr, Ha, (take_S_r _ _ s) by exact Hs.
    simpl length. rewrite <- !app_assoc.
    replace (S i + length (filter (keeps g) todo))
      with (i + S (length (filter (keeps g) todo))) by lia.
    auto.
  - rewrite filter_cons_False by exact Hk.
    apply (Group_loop_filter g Hg todo orig i (S i));
      (lia || assumption || reflexivity).
Qed.

(** The first phase follows the pure scan; the array is not written to
    before the second phase starts. *)
Lemma Group_loop_scan :
  forall todo i g,
    drop i orig = todo ->
    Group_loop slashes (length todo) i (mkState orig g true (Fresh []))
    = Group_pure_loop slashes orig todo i g
    /\ Group_loop_array slashes (length todo) i (mkState orig g true (Fresh []))
       = Group_pure_loop slashes orig todo i g
           ++ drop (length (Group_pure_loop slashes orig todo i g)) orig.
Proof.
  assert (Hwhole : orig = orig ++ drop (length orig) orig)
    by (rewrite drop_all, app_nil_r; reflexivity).
  induction todo as [|s todo IH]; intros i g Hdrop.
  - simpl. auto.
  - pose proof Hdrop as Hdrop'.
    apply drop_cons_inv in Hdrop as (Hs & Hdrop & Hi).
    simpl Group_loop. simpl Group_loop_array. simpl mem. rewrite Hs.
    unfold Group_body. simpl count. simpl group. simpl Group_pure_loop.
    destruct (decide (strings_Count (Service.Key s) "/" = slashes)) as [Ht|Ht].
    + rewrite bool_decide_eq_true_2 by exact Ht. simpl andb.
      destruct (decide (Service.Group s = [])) as [He|He];
        [apply IH, Hdrop|].
      destruct (decide (g = [])) as [Hg|Hg]; [apply IH, Hdrop|].
      destruct (decide (Service.Group s = g)) as [Heq|Hne].
      * rewrite decide_False by tauto.
        destruct (Group_first_descent g s todo i Hg Hdrop') as [Hr Ha].
        rewrite Hr, Ha, length_app, length_take_le by lia. auto.
      * rewrite decide_True by tauto. simpl. auto.
    + rewrite bool_decide_eq_false_2 by exact Ht. simpl andb.
      destruct (decide (g = [])) as [Hg|Hg].
      * unfold Group_descend. simpl. rewrite decide_True by exact Hg. auto.
      * destruct (Group_first_descent g s todo i Hg Hdrop') as [Hr Ha].
        rewrite Hr, length_app, length_take_le by lia.
        split; [reflexivity|].
        destruct (Group_descend i s (mkState orig g true (Fresh [])));
          exact Ha.
Qed.

End GroupPhases.

(** [Group] and [Group_array] in terms of the pure scan. *)
Lemma Group_scan_result (sx : list Service) :
  Group sx = Group_pure sx
  /\ Group_array sx = Group_pure sx ++ drop (length (Group_pure sx)) sx.
Proof.
  destruct sx as [|s0 tl]; [split; reflexivity|].
  unfold Group, Group_array, Group_pure.
  apply (Group_loop_scan _ (s0 :: tl) (s0 :: tl) 0 []). reflexivity.
Qed.

(** X1: the result of [Group], computed with appends into the array of
    its argument, is the result of the pure scan [Group_pure]: nothing,
    [sx] itself, or the entries before the first one that is deeper or
    repeats the group, followed by the later entries that have no group
    or that group. *)
Theorem Group_eq_pure (sx : list Service) : Group sx = Group_pure sx.
Proof. apply Group_scan_result. Qed.

Lemma Group_pure_loop_sublist slashes (sx : list Service) :
  forall todo i g,
    drop i sx = todo -> Group_pure_loop slashes sx todo i g `sublist_of` sx.
Proof.
  assert (Hcut : forall g i, take i sx ++ filter (keeps g) (drop i sx)
                             `sublist_of` sx).
  { intros g i. rewrite <- (take_drop i sx) at 3.
    apply sublist_app; [reflexivity | apply sublist_filter]. }
  induction todo as [|s todo IH]; intros i g Hdrop; simpl.
  - apply sublist_nil_l.
  - pose proof Hdrop as Hdrop'.
    apply drop_cons_inv in Hdrop as (_ & Hdrop & _).
    repeat case_decide; try (apply IH, Hdrop); try reflexivity;
      rewrite <- Hdrop'; apply Hcut.
Qed.

Lemma Group_pure_sublist (sx : list Service) : Group_pure sx `sublist_of` sx.
Proof.
  destruct sx as [|s0 tl]; [reflexivity|].
  apply Group_pure_loop_sublist. reflexivity.
Qed.

(** X2: when [Group] returns, the first cells of the array of its
    argument hold the result and the cells after them are as they were:
    an entry that was filtered out is overwritten by the next one kept. *)
Theorem Group_array_after (sx : list Service) :
  Group_array sx = Group sx ++ drop (length (Group sx)) sx
  /\ length (Group_array sx) = length sx.
Proof.
  destruct (Group_scan_result sx) as [Hr Ha]. rewrite Ha, Hr.
  split; [reflexivity|].
  pose proof (sublist_length _ _ (Group_pure_sublist sx)).
  rewrite length_app, length_drop. lia.
Qed.

(** X3: the result of [Group] is a sublist of its argument: entries are
    left out, never added, changed or reordered. *)
Theorem Group_sublist (sx : list Service) : Group sx `sublist_of` sx.
Proof.
  destruct (Group_scan_result sx) as [-> _]. apply Group_pure_sublist.
Qed.

Section GroupScan.

Variable slashes : nat.
Variable sx : list Service.

(** The scan passes over ungrouped entries at the top depth. *)
Lemma Group_pure_loop_skip (skip todo : list Service) :
  Forall (top_ungrouped slashes) skip ->
  forall i g,
    Group_pure_loop slashes sx (skip ++ todo) i g
    = Group_pure_loop slashes sx todo (i + length skip) g.
Proof.
  induction skip as [|s skip IH]; intros Hskip i g.
  - rewrite Nat.add_0_r. reflexivity.
  - apply Forall_cons in Hskip as [[Hk He] Hskip]. simpl.
    rewrite decide_True by exact Hk. rewrite decide_True by exact He.
    rewrite IH by exact Hskip. f_equal. lia.
Qed.

(** The first entry with a group establishes it. *)
Lemma Group_pure_loop_establish (a : Service) (todo : list Service) i :
  strings_Count (Service.Key a) "/" = slashes -> Service.Group a <> [] ->
  Group_pure_loop slashes sx (a :: todo) i []
  = Group_pure_loop slashes sx todo (S i) (Service.Group a).
Proof.
  intros Hk Ha. simpl.
  rewrite decide_True by exact Hk. rewrite decide_False by exact Ha.
  reflexivity.
Qed.

End GroupScan.

Lemma Group_pure_slashes slashes (sx : list Service) :
  (forall s0 tl, sx = s0 :: tl -> strings_Count (Service.Key s0) "/" = slashes) ->
  sx <> [] -> Group_pure sx = Group_pure_loop slashes sx sx 0 [].
Proof.
  intros Hs Hne. destruct sx as [|s0 tl]; [contradiction|].
  unfold Group_pure. rewrite (Hs s0 tl eq_refl). reflexivity.
Qed.

(** X4: with one group [g] found among the leading top-depth entries, the
    first entry that is deeper, or is at the top depth and repeats [g],
    starts the filtering: everything before it is kept, and of it and the
    entries after it those whose group is empty or [g]. *)
Theorem Group_filters_from_descent slashes (pre mid rest : list Service) a d :
  Forall (top_ungrouped slashes) pre ->
  strings_Count (Service.Key a) "/" = slashes -> Service.Group a <> [] ->
  Forall (top_ungrouped slashes) mid ->
  strings_Count (Service.Key d) "/" <> slashes
    \/ Service.Group d = Service.Group a ->
  Group (pre ++ a :: mid ++ d :: rest)
  = pre ++ a :: mid ++ filter (keeps (Service.Group a)) (d :: rest).
Proof.
  intros Hpre Hka Ha Hmid Hd.
  destruct (Group_scan_result (pre ++ a :: mid ++ d :: rest)) as [-> _].
  rewrite (Group_pure_slashes slashes).
  - rewrite Group_pure_loop_skip by exact Hpre.
    rewrite Group_pure_loop_establish by assumption.
    rewrite Group_pure_loop_skip by exact Hmid.
    assert (Htake : take (S (0 + length pre) + length mid)
                      (pre ++ a :: mid ++ d :: rest) = pre ++ a :: mid).
    { replace (pre ++ a :: mid ++ d :: rest)
        with ((pre ++ a :: mid) ++ d :: rest)
        by (rewrite <- app_assoc; reflexivity).
      apply take_app_length'. rewrite length_app. simpl. lia. }
    remember (S (0 + length pre) + length mid) as n eqn:Hn.
    remember (pre ++ a :: mid ++ d :: rest) as sx eqn:Hsx.
    clear Hn Hsx. simpl Group_pure_loop. rewrite Htake.
    destruct (decide (strings_Count (Service.Key d) "/" = slashes)) as [Ht|Ht].
    + destruct Hd as [Hd|Hd]; [contradiction|].
      rewrite decide_False by congruence.
      rewrite decide_False by exact Ha.
      rewrite decide_True by exact Hd.
      rewrite <- app_assoc. reflexivity.
    + rewrite decide_False by exact Ha.
      rewrite <- app_assoc. reflexivity.
  - destruct pre as [|s pre']; simpl; intros s0 tl [= <- _]; [exact Hka|].
    apply Forall_cons in Hpre as [[Hk _] _]. exact Hk.
  - destruct pre; discriminate.
Qed.

Lemma Group_filters_from_descent_witness :
  Group [svc "/a/b" ""; svc "/a/b" "x"; svc "/a/b/c" "z"; svc "/a/b/c" "";
         svc "/a/b" "y"; svc "/a/b/c" "x"]
  = [svc "/a/b" ""; svc "/a/b" "x"; svc "/a/b/c" ""; svc "/a/b/c" "x"].
Proof.
  apply (Group_filters_from_descent 2
           [svc "/a/b" ""] [] [svc "/a/b/c" ""; svc "/a/b" "y"; svc "/a/b/c" "x"]
           (svc "/a/b" "x") (svc "/a/b/c" "z")).
  - repeat constructor.
  - reflexivity.
  - discriminate.
  - constructor.
  - left. vm_compute. lia.
Defined.

(** X5: when the leading top-depth entries have no group and a deeper
    entry follows them, [Group] returns its argument unchanged. *)
Theorem Group_ungrouped_returns_input slashes (top rest : list Service) d :
  top <> [] -> Forall (top_ungrouped slashes) top ->
  strings_Count (Service.Key d) "/" <> slashes ->
  Group (top ++ d :: rest) = top ++ d :: rest.
Proof.
  intros Hne Htop Hd.
  destruct (Group_scan_result (top ++ d :: rest)) as [-> _].
  rewrite (Group_pure_slashes slashes).
  - rewrite Group_pure_loop_skip by exact Htop. simpl.
    rewrite decide_False by exact Hd. reflexivity.
  - destruct top as [|s top']; [contradiction|].
    simpl. intros s0 tl [= <- _].
    apply Forall_cons in Htop as [[Hk _] _]. exact Hk.
  - destruct top; [contradiction | discriminate].
Qed.

Lemma Group_ungrouped_returns_input_witness :
  Group [svc "/a/b" ""; svc "/a/b" ""; svc "/a/b/c" "x"; svc "/a/b/c" "y"]
  = [svc "/a/b" ""; svc "/a/b" ""; svc "/a/b/c" "x"; svc "/a/b/c" "y"].
Proof.
  apply (Group_ungrouped_returns_input 2
           [svc "/a/b" ""; svc "/a/b" ""] [svc "/a/b/c" "y"] (svc "/a/b/c" "x")).
  - discriminate.
  - repeat constructor.
  - vm_compute. lia.
Defined.

Lemma Group_first_conflict_aborts_witness :
  Group [svc "/a/b" ""; svc "/a/b" "x"; svc "/a/b" ""; svc "/a/b" "y";
         svc "/a/b/c" "x"]
  = [svc "/a/b" ""; svc "/a/b" "x"; svc "/a/b" ""; svc "/a/b" "y";
     svc "/a/b/c" "x"].
Proof.
  apply (Group_first_conflict_aborts 2
           [svc "/a/b" ""] [svc "/a/b" ""] [svc "/a/b/c" "x"]
           (svc "/a/b" "x") (svc "/a/b" "y")).
  - repeat constructor.
  - reflexivity.
  - discriminate.
  - repeat constructor.
  - reflexivity.
  - discriminate.
  - discriminate.
Defined.

(** ** The shape of the chunks of [split255] *)

(** The loop appends as many chunks of 255 bytes as fit into what is left
    of [s] from [p] on, and then what remains, which may be nothing. *)
Lemma split255_loop_shape (s : gostring) p i sx :
  i = p + 255 -> p <= length s ->
  exists full last q r,
    split255_loop s p i sx = Some (sx ++ full ++ [last])
    /\ Forall (fun c => length c = 255) full
    /\ length full = q /\ length last = r
    /\ length s - p = 255 * q + r /\ r < 255.
Proof.
  funelim (split255_loop s p i sx); intros Hi Hp.
  - apply slice_inv in Heq as (_ & _ & ->).
    match goal with
    | IH : _ -> _ -> exists _, _ |- _ =>
        destruct IH as (full & last & q & r & Hloop & Hfull & Hq & Hr & Hdiv & Hlt);
          [lia | lia |]
    end.
    exists (take (i - p) (drop p s) :: full), last, (S q), r.
    rewrite Hloop, <- app_assoc. simpl.
    repeat split; try assumption; try lia.
    constructor; [|exact Hfull].
    rewrite length_take, length_drop. lia.
  - rewrite slice_Some in Heq by lia. discriminate.
  - rewrite slice_from_Some in Heq by lia. injection Heq as <-.
    exists [], (drop p s), 0, (length s - p). simpl.
    repeat split; try lia; [constructor | apply length_drop].
  - rewrite slice_from_Some in Heq by lia. discriminate.
Qed.

(** X7: the result of [split255] is [len / 255] chunks of exactly 255
    bytes followed by one chunk of [len mod 255] bytes, for every string
    of [len] bytes; so a text whose length is a multiple of 255 (and not
    0) ends with an empty chunk. *)
Theorem split255_shape (s : gostring) :
  exists full last,
    split255 s = Some (full ++ [last])
    /\ Forall (fun c => length c = 255) full
    /\ length full = length s / 255
    /\ length last = length s mod 255.
Proof.
  unfold split255. case_decide as Hlt.
  - exists [], s.
    rewrite Nat.div_small, Nat.mod_small by exact Hlt.
    repeat split. constructor.
  - destruct (split255_loop_shape s 0 255 [] eq_refl ltac:(lia))
      as (full & last & q & r & Hloop & Hfull & Hq & Hr & Hdiv & Hr255).
    exists full, last. rewrite Hloop.
    rewrite Nat.sub_0_r in Hdiv.
    repeat split; [exact Hfull | |].
    + rewrite Hq. apply (Nat.div_unique _ _ _ r); lia.
    + rewrite Hr. apply (Nat.mod_unique _ _ q); lia.
Qed.

(** ** The target of [NewSRV] *)

(** X8: the target of the SRV record is always a suffix of the
    fully-qualified host and ends with a dot; a [TargetStrip] of zero or
    below leaves the host whole. *)
Theorem NewSRV_target_suffix (s : Service) (name : gostring) (weight : Z) :
  exists r pre,
    NewSRV s name weight = Some r
    /\ dns.Fqdn (Service.Host s) = pre ++ RR.SRV_Target r
    /\ dns.IsFqdn (RR.SRV_Target r) = true
    /\ ((Service.TargetStrip s <= 0)%Z ->
        RR.SRV_Target r = dns.Fqdn (Service.Host s)).
Proof.
  set (host := dns.Fqdn (Service.Host s)).
  set (k := Z.to_nat (Service.TargetStrip s)).
  destruct (NewSRV_offset host k (dns_facts.IsFqdn_Fqdn _))
    as (labels & off & e & HL & Hloop & Hdrop & Hle).
  unfold NewSRV. fold host. fold k. rewrite Hloop.
  rewrite slice_from_Some by exact Hle.
  eexists. exists (take (if e then 0 else off) host).
  split; [reflexivity|]. simpl. split; [|split].
  - symmetry. apply take_drop.
  - rewrite Hdrop. case_decide.
    + apply dotted_IsFqdn.
    + apply dns_facts.IsFqdn_Fqdn.
  - intros Hk. assert (Hk0 : k = 0) by (unfold k; lia).
    rewrite Hk0 in Hloop. simpl in Hloop. injection Hloop as <- <-.
    apply drop_0.
Qed.

(** ** When [Domain] is defined *)

Lemma strings_Split_length s sep :
  length (strings_Split s sep) = S (strings_Count s sep).
Proof.
  induction s as [|c r IH]; [reflexivity|]. simpl.
  case_decide; simpl; [rewrite IH; reflexivity|].
  destruct (strings_Split r sep); simpl in *; [discriminate | exact IH].
Qed.

Lemma strings_Count_zero s sep : strings_Count s sep = 0 <-> sep ∉ s.
Proof.
  induction s as [|c r IH]; simpl.
  - split; [intros _; apply not_elem_of_nil | reflexivity].
  - rewrite not_elem_of_cons. case_decide as Hc.
    + split; [discriminate | intros [Hne _]; congruence].
    + rewrite IH. split; [intros H; split; [congruence | exact H] | tauto].
Qed.

Lemma swap_length {A} (l : list A) i j : length (swap l i j) = length l.
Proof.
  unfold swap. destruct (l !! i), (l !! j); try reflexivity.
  rewrite !length_insert. reflexivity.
Qed.

(** The reversal loop moves cells, it never adds or drops one. *)
Lemma reverse_loop_length {A} (l : list A) i j :
  length (reverse_loop l i j) = length l.
Proof.
  remember (j - i) as n eqn:Hn. revert l i j Hn.
  induction n as [n IH] using lt_wf_ind. intros l i j Hn.
  destruct (decide (i < j)) as [Hlt|Hge].
  - rewrite reverse_loop_lt by exact Hlt.
    rewrite (IH (j - 1 - S i)) by (lia || reflexivity).
    apply swap_length.
  - rewrite reverse_loop_ge by exact Hge. reflexivity.
Qed.

(** X9: [Domain] panics exactly on the strings without a slash; on every
    other string it returns a name that ends with a dot. *)
Theorem Domain_defined_iff_slash (s : gostring) :
  (Domain s = None <-> "/"%char ∉ s)
  /\ (forall d, Domain s = Some d -> dns.IsFqdn d = true).
Proof.
  unfold Domain. rewrite reverse_loop_length.
  set (l := reverse_loop _ _ _).
  assert (Hlen : length l = S (strings_Count s "/"))
    by (unfold l; rewrite reverse_loop_length; apply strings_Split_length).
  rewrite strings_Split_length. rewrite <- strings_Count_zero.
  unfold slice. rewrite Hlen. split.
  - case_decide as Hb; simpl in Hb.
    + split; [discriminate | lia].
    + split; [lia | reflexivity].
  - intros d. case_decide; [|discriminate].
    intros [= <-]. apply dns_facts.IsFqdn_Fqdn.
Qed.

(** ** [Path] and [PathWithWildcard] on every string *)

(** X10: [Path] and [PathWithWildcard] return on every string (no slice
    of theirs is out of range), and the flag of [PathWithWildcard] is
    true exactly when one of the labels of the name is the wildcard. *)
Theorem Path_total_flag (s : gostring) :
  exists l p q b,
    dns.SplitDomainName s = Some l
    /\ Path s = Some p
    /\ PathWithWildcard s = Some (q, b)
    /\ (b = true <-> str "*" ∈ l).
Proof.
  destruct (dns_facts.SplitDomainName_total s) as [l Hl].
  unfold Path, PathWithWildcard. rewrite Hl, reverse_loop_all.
  destruct (PathWithWildcard_loop_spec (rev l) []) as [H1 H2].
  simpl in H1, H2.
  assert (Hrev : str "*" ∈ rev l <-> str "*" ∈ l).
  { rewrite !list_elem_of_In. symmetry. apply in_rev. }
  destruct (decide (str "*" ∈ rev l)) as [Hin|Hout].
  - destruct (list_elem_of_split_l _ _ Hin) as (pre & post & Heq & Hpre).
    exists l, (path_Join (skydns_root :: rev l)),
      (path_Join (skydns_root :: pre)), true.
    split; [reflexivity|]. split; [reflexivity|].
    split; [apply (H2 pre post Heq Hpre) | tauto].
  - exists l, (path_Join (skydns_root :: rev l)),
      (path_Join (skydns_root :: rev l)), false.
    split; [reflexivity|]. split; [reflexivity|].
    split; [apply H1, Hout|].
    split; [discriminate | tauto].
Qed.

(** ** Keys of plain names *)

Lemma key_of_split (ls : list gostring) :
  Forall plain_label ls ->
  strings_Split (key_of ls) "/" = [] :: str "skydns" :: rev ls.
Proof.
  intros Hls. unfold key_of.
  etrans; [apply (strings_Split_app [] _ "/"%char)|].
  change (str "/") with ["/"%char].
  rewrite strings_Split_Join; [reflexivity | discriminate |].
  constructor.
  - intros H. repeat (apply elem_of_cons in H as [H|H]; [discriminate|]).
    apply elem_of_nil in H. exact H.
  - apply Forall_rev. eapply Forall_impl; [exact Hls|].
    intros l (_ & _ & _ & H). exact H.
Qed.

(** X11: two different names made of plain labels never get the same
    key from [Path]. *)
Theorem Path_injective (a b : list gostring) :
  Forall plain_label a -> Forall plain_label b ->
  a <> b -> Path (dotted a) <> Path (dotted b).
Proof.
  intros Ha Hb Hne Heq. apply Hne.
  rewrite !Path_dotted in Heq by assumption.
  assert (Hk : key_of a = key_of b) by congruence.
  pose proof (key_of_split a Ha) as Hsa.
  pose proof (key_of_split b Hb) as Hsb.
  rewrite Hk, Hsb in Hsa.
  assert (Hrev : rev b = rev a) by congruence.
  rewrite <- (rev_involutive a), <- (rev_involutive b), Hrev. reflexivity.
Qed.

Lemma plain_label_of (s : string) :
  Forall (fun c => c <> "."%char /\ c <> "\"%char /\ c <> "/"%char) (str s) ->
  str s <> [] -> plain_label (str s).
Proof.
  intros Hall Hne. split; [exact Hne|].
  repeat split; intros Hin;
    apply (proj1 (Forall_forall _ _) Hall) in Hin; tauto.
Qed.

Lemma Path_injective_witness :
  Path (str "web.prod.local.") <> Path (str "web.test.local.").
Proof.
  apply (Path_injective [str "web"; str "prod"; str "local"]
                        [str "web"; str "test"; str "local"]).
  - repeat constructor;
      apply plain_label_of; try discriminate;
      repeat constructor; discriminate.
  - repeat constructor;
      apply plain_label_of; try discriminate;
      repeat constructor; discriminate.
  - discriminate.
Defined.

(** The wildcard key of a plain name is the key of the labels that come
    after the last wildcard. *)
Lemma PathWithWildcard_dotted (pre post : list gostring) :
  Forall plain_label pre -> Forall plain_label post -> str "*" ∉ post ->
  PathWithWildcard (dotted (pre ++ str "*" :: post)) = Some (key_of post, true).
Proof.
  intros Hpre Hpost Hfree.
  assert (Hstar : plain_label (str "*"))
    by (apply plain_label_of; [repeat constructor|]; discriminate).
  unfold PathWithWildcard.
  rewrite SplitDomainName_dotted
    by (apply Forall_app; split; [exact Hpre | constructor; assumption]).
  rewrite reverse_loop_all.
  destruct (PathWithWildcard_loop_spec (rev (pre ++ str "*" :: post)) [])
    as [_ H2].
  etrans; [apply (H2 (rev post) (rev pre))|].
  - rewrite rev_app_distr. simpl. rewrite <- app_assoc. reflexivity.
  - intros Hin. apply Hfree.
    apply list_elem_of_In. apply list_elem_of_In, in_rev in Hin. exact Hin.
  - simpl app. rewrite path_Join_plain by (apply Forall_rev, Hpost).
    reflexivity.
Qed.

(** X12: for a name of plain labels with a wildcard label,
    [PathWithWildcard] returns, with the flag set, the key that [Path]
    gives to the name made of the labels to the right of the rightmost
    wildcard. *)
Theorem PathWithWildcard_parent (pre post : list gostring) :
  Forall plain_label pre -> Forall plain_label post -> str "*" ∉ post ->
  exists key,
    PathWithWildcard (dotted (pre ++ str "*" :: post)) = Some (key, true)
    /\ Path (dotted post) = Some key.
Proof.
  intros Hpre Hpost Hfree. exists (key_of post). split.
  - apply PathWithWildcard_dotted; assumption.
  - apply Path_dotted, Hpost.
Qed.

Lemma PathWithWildcard_parent_witness :
  exists key,
    PathWithWildcard (str "service.*.skydns.local.") = Some (key, true)
    /\ Path (str "skydns.local.") = Some key.
Proof.
  apply (PathWithWildcard_parent [str "service"] [str "skydns"; str "local"]).
  - repeat constructor;
      apply plain_label_of; try discriminate; repeat constructor; discriminate.
  - repeat constructor;
      apply plain_label_of; try discriminate; repeat constructor; discriminate.
  - intros H. repeat (apply elem_of_cons in H as [H|H]; [discriminate|]).
    apply elem_of_nil in H. exact H.
Defined.

Lemma strings_Join_app (xs ys : list gostring) sep :
  xs <> [] -> ys <> [] ->
  strings_Join (xs ++ ys) sep = strings_Join xs sep ++ sep ++ strings_Join ys sep.
Proof.
  induction xs as [|x xs IH]; intros Hx Hy; [contradiction|].
  destruct xs as [|x' xs'].
  - simpl app. rewrite strings_Join_cons by exact Hy. reflexivity.
  - change ((x :: x' :: xs') ++ ys) with (x :: ((x' :: xs') ++ ys)).
    rewrite strings_Join_cons by discriminate.
    rewrite IH by (discriminate || exact Hy).
    rewrite (strings_Join_cons x (x' :: xs')) by discriminate.
    rewrite <- !app_assoc. reflexivity.
Qed.

(** X13: the wildcard key is a directory above the key of every plain
    name that has, in place of the wildcard and the labels to its left,
    one or more plain labels: the search under the wildcard key covers
    all names the wildcard can stand for. *)
Theorem wildcard_key_covers (pre post m : list gostring) :
  Forall plain_label pre -> Forall plain_label post -> str "*" ∉ post ->
  Forall plain_label m -> m <> [] ->
  exists key below,
    PathWithWildcard (dotted (pre ++ str "*" :: post)) = Some (key, true)
    /\ Path (dotted (m ++ post)) = Some (key ++ "/"%char :: below).
Proof.
  intros Hpre Hpost Hfree Hm Hne.
  exists (key_of post), (strings_Join (rev m) (str "/")). split.
  - apply PathWithWildcard_dotted; assumption.
  - rewrite Path_dotted by (apply Forall_app; split; assumption).
    unfold key_of. rewrite rev_app_distr.
    change (str "skydns" :: rev post ++ rev m)
      with ((str "skydns" :: rev post) ++ rev m).
    rewrite strings_Join_app; [reflexivity | discriminate |].
    intros Hnil. apply Hne.
    rewrite <- (rev_involutive m), Hnil. reflexivity.
Qed.

Lemma wildcard_key_covers_witness :
  exists key below,
    PathWithWildcard (str "*.skydns.local.") = Some (key, true)
    /\ Path (str "web.prod.skydns.local.") = Some (key ++ "/"%char :: below).
Proof.
  apply (wildcard_key_covers [] [str "skydns"; str "local"]
                             [str "web"; str "prod"]).
  - constructor.
  - repeat constructor;
      apply plain_label_of; try discriminate; repeat constructor; discriminate.
  - intros H. repeat (apply elem_of_cons in H as [H|H]; [discriminate|]).
    apply elem_of_nil in H. exact H.
  - repeat constructor;
      apply plain_label_of; try discriminate; repeat constructor; discriminate.
  - discriminate.
Defined.

(** ** Names without the final dot *)

(** The labels of a name that is not fully qualified and has no
    backslash hold no dot either: the last label runs to the end of the
    name, whose last byte is not a dot. *)
Lemma SplitDomainName_dotfree_open s L :
  "\"%char ∉ s -> dns.IsFqdn s = false -> dns.SplitDomainName s = Some L ->
  Forall (fun l => "."%char ∉ l) L.
Proof.
  intros Hbs Hfq. unfold dns.SplitDomainName.
  case_decide; [intros [= <-]; constructor|].
  unfold dns.Split. case_decide; [intros [= <-]; constructor|].
  destruct (dns_facts.Split_loop_chain s 0 [0]) as (rest & -> & Hch). simpl.
  destruct (dns.SplitDomainName_loop s rest 0 []) as [[lo out]|] eqn:Hloop;
    [|discriminate].
  rewrite Hfq.
  destruct (slice s lo (length s)) as [c|] eqn:Hc; [|discriminate].
  intros [= <-].
  destruct (dns_plain.SplitDomainName_loop_dotfree s Hbs _ _ _ _ _ Hch Hloop)
    as [Hout Hend]; [constructor|].
  apply Forall_app. split; [exact Hout|]. constructor; [|constructor].
  apply slice_inv in Hc as (Hlo & _ & ->).
  destruct (dns.NextLabel s lo) as [o e] eqn:Hnl. simpl in Hend. subst e.
  pose proof (dns_facts.NextLabel_true _ _ _ Hnl) as Ho.
  pose proof (dns_plain.NextLabel_plain _ _ _ _ Hbs Hnl) as Hfree.
  intros Hin. apply elem_of_take in Hin as (idx & Hidx & Hlt).
  rewrite lookup_drop in Hidx.
  destruct (decide (idx < o - S lo)) as [Hin|Hlast].
  - apply Hfree. apply elem_of_take. exists idx.
    rewrite lookup_drop. auto.
  - assert (Hpos : lo + idx = pred (length s)) by lia.
    unfold dns.IsFqdn in Hfq. rewrite last_lookup, <- Hpos, Hidx in Hfq.
    discriminate.
Qed.

(** [SplitDomainName] gives the labels also when the final dot is
    missing. *)
Lemma SplitDomainName_undotted (ls : list gostring) :
  Forall plain_label ls -> ls <> [] ->
  dns.SplitDomainName (strings_Join ls (str ".")) = Some ls.
Proof.
  intros Hls Hne.
  set (s := strings_Join ls (str ".")).
  assert (Hfq : dns.IsFqdn s = false).
  { pose proof (Fqdn_Join_plain ls Hls) as HF. fold s in HF.
    unfold dns.Fqdn, dotted in HF. fold s in HF.
    destruct (dns.IsFqdn s); [|reflexivity].
    apply (f_equal length) in HF. rewrite length_app in HF. simpl in HF. lia. }
  assert (Hnil : s <> []) by (apply strings_Join_plain_not_nil; assumption).
  assert (Hbs : "\"%char ∉ s).
  { apply strings_Join_free.
    - intros H. apply list_elem_of_singleton in H. discriminate.
    - eapply Forall_impl; [exact Hls|]. intros l (_ & _ & H & _). exact H. }
  destruct (dns_facts.SplitDomainName_spec s) as (L & HL & _ & Hname).
  rewrite HL. f_equal.
  destruct Hname as (rest & _ & Hlen & Hk); [exact Hnil | |].
  { intros Heq. rewrite Heq in Hfq. discriminate. }
  specialize (Hk 0 ltac:(lia)). rewrite Hfq in Hk.
  simpl in Hk. rewrite drop_0, app_nil_r in Hk.
  pose proof (SplitDomainName_dotfree_open _ _ Hbs Hfq HL) as Hfree.
  rewrite <- (strings_Split_Join L "."%char);
    [|destruct L; discriminate | exact Hfree].
  change ["."%char] with (str ".") in *. rewrite Hk.
  apply strings_Split_Join; [exact Hne|].
  eapply Forall_impl; [exact Hls|]. intros l (_ & H & _). exact H.
Qed.

(** X14: [Path] does not need the final dot: a name of plain labels
    written without it gets the key of the fully-qualified name, and
    [Domain] of that key is the name with the dot added. *)
Theorem Path_without_final_dot (ls : list gostring) :
  Forall plain_label ls -> ls <> [] ->
  exists key,
    Path (strings_Join ls (str ".")) = Some key
    /\ Path (dotted ls) = Some key
    /\ Domain key = Some (dns.Fqdn (strings_Join ls (str "."))).
Proof.
  intros Hls Hne. exists (key_of ls). split; [|split].
  - unfold Path. rewrite SplitDomainName_undotted by assumption.
    rewrite reverse_loop_all, path_Join_plain by (apply Forall_rev, Hls).
    reflexivity.
  - apply Path_dotted, Hls.
  - rewrite Domain_key, Fqdn_Join_plain by exact Hls. reflexivity.
Qed.

Lemma Path_without_final_dot_witness :
  exists key,
    Path (str "web.skydns.local") = Some key
    /\ Path (str "web.skydns.local.") = Some key
    /\ Domain key = Some (dns.Fqdn (str "web.skydns.local")).
Proof.
  apply (Path_without_final_dot [str "web"; str "skydns"; str "local"]).
  - repeat constructor;
      apply plain_label_of; try discriminate; repeat constructor; discriminate.
  - discriminate.
Defined.

(** ** The reversal loop on a range *)

(** X15: the loop [for i, j := i0, j0; i < j; i, j = i+1, j-1] with its
    swap reverses the cells from [i0] to [j0] and leaves the cells
    before and after them as they are. *)
Theorem reverse_loop_range {A} (l : list A) (i j : nat) :
  i <= j -> j < length l ->
  reverse_loop l i j
  = take i l ++ rev (take (S j - i) (drop i l)) ++ drop (S j) l.
Proof.
  intros Hij Hj.
  pose proof (reverse_loop_middle (take (S j - i) (drop i l))
                (take i l) (drop (S j) l)) as H.
  rewrite !length_take, length_drop in H.
  replace (i `min` length l + (S j - i) `min` (length l - i) - 1)
    with j in H by lia.
  replace (i `min` length l) with i in H by lia.
  rewrite <- H. f_equal.
  rewrite <- (take_drop i l) at 1. f_equal.
  rewrite <- (take_drop (S j - i) (drop i l)) at 1. f_equal.
  rewrite drop_drop. f_equal. lia.
Qed.

Lemma reverse_loop_range_witness :
  reverse_loop [10; 20; 30; 40; 50] 1 3 = [10; 40; 30; 20; 50].
Proof.
  apply (reverse_loop_range [10; 20; 30; 40; 50] 1 3); simpl; lia.
Defined.
